(** * Photo archiver: manifest, remote inventories and the upload loop

    A shallow embedding of [modules/db.py] (class [FileList]), of the
    loop over the photos at the end of [main.py] and of the extension of a
    photo ([VKPhotoSize.file_extension] in [modules/vk.py]), in stdpp's
    finite maps and lists.

    - The two dictionaries [google_folder_files_list] and
      [yandex_folder_files_list] (hash to name) are [gmap string string];
      their [.values()] are the only names the program knows on a cloud.
    - The manifest [FileList._items] is a list of records, updated by
      index, because [FileList.add] mutates the dictionary that
      [FileList.get] returned.
    - The variables [gdrive] and [yadisk] take three values: [False], the
      client object, [None].
    - The two upload loops of [main.py] are the same text up to the cloud;
      one definition, with the cloud as a parameter, stands for both.
    - The clients of the clouds are outside: a call is answered by an
      arbitrary function of what happened so far. Calls and log lines are
      kept in a journal, in the order in which they happen.
    - [while True] is unrolled with fuel; [None] means the fuel ran out.
    - Reading a photo from the source (size, mime type, bytes) is taken
      as done: the photo arrives with its extension and its md5.

    Further parts of the program stand beside these: [Config] of
    [modules/db.py], with the files as a map from paths to YAML
    documents; the order of [VKPhotoSize], [VKPhoto.max_size] and
    [VKPhotoAlbum.get_photos] of [modules/vk.py]; the PUT loop of
    [YaDisk.upload] and the pages of [YaDisk.files_list] in
    [modules/yandex.py]; the pages of [GoogleDriveAPIv3.files_list] in
    [modules/google.py]; [parse_url_get_params] of [modules/oauth.py]; and
    the lines of [main.py] that build the two dictionaries from the
    listings. A server is a function from the request to the response
    body; an exception is an outcome of its own, or [None] where there is
    only one. *)

From Stdlib Require Import Ascii.
From stdpp Require Import gmap strings list fin_maps pretty.

(** ** modules/db.py *)

Module db.

(** One element of [FileList._items]: the dictionary built at the end
    of [FileList.add]. *)
Record Entry := mkEntry {
  file_name : string;
  size : string;
  checksum : string;
  disks : list string
}.

#[global] Instance Entry_eq_dec : EqDecision Entry.
Proof. solve_decision. Defined.

(** [class FileAlreadyExistInFileList(Exception)], with its message. *)
Inductive Error := FileAlreadyExistInFileList (message : string).

(** How a call ends: the method returns, or an exception leaves it. *)
Inductive Outcome := Returned | Raised (e : Error).

Module FileList.

(** The test of the loop of [FileList.get]:
    [item['file_name'] == name_or_checksum or
     item['checksum'] == name_or_checksum]. *)
Definition hit (name_or_checksum : string) (item : Entry) : Prop :=
  file_name item = name_or_checksum ∨ checksum item = name_or_checksum.

#[global] Instance hit_dec key item : Decision (hit key item).
Proof. unfold hit. apply _. Defined.

(** [FileList.get]: the first item of the list that passes the test,
    with its position (Python returns a reference to the stored
    dictionary; the position stands for that reference). *)
Definition get (items : list Entry) (name_or_checksum : string)
  : option (nat * Entry) :=
  list_find (hit name_or_checksum) items.

(** [self.get(name) or self.get(checksum)]: an item dictionary has four
    keys and is truthy, so the second lookup runs only when the first
    returned [None]. *)
Definition get_or (items : list Entry) (name checksum : string)
  : option (nat * Entry) :=
  match get items name with
  | Some found => Some found
  | None => get items checksum
  end.

(** The items that one of the two lookups of [add] can return. *)
Definition matches (name checksum : string) (item : Entry) : Prop :=
  hit name item ∨ hit checksum item.

(** [item['disks'].append(disk)] on the stored dictionary. *)
Definition append_disk (disk : string) (item : Entry) : Entry :=
  mkEntry (file_name item) (size item) (checksum item)
          (disks item ++ [disk]).

(** [FileList.add]. The list that comes back is [self._items] as the
    call leaves it, on return and on raise alike. *)
Definition add (items : list Entry) (name size checksum disk : string)
  : list Entry * Outcome :=
  match get_or items name checksum with
  | Some (i, item) =>
      if decide (disk ∈ disks item)
      then (items,
            Raised (FileAlreadyExistInFileList
                      "Information about this file already exists!"))
      else (<[i := append_disk disk item]> items, Returned)
  | None =>
      (items ++ [mkEntry name size checksum [disk]], Returned)
  end.

(** A list in which no two items share a file name, no two share a
    checksum, and every item names at least one disk, each once. *)
Definition tidy (items : list Entry) : Prop :=
  NoDup (file_name <$> items) ∧ NoDup (checksum <$> items) ∧
  Forall (λ item, NoDup (disks item) ∧ disks item ≠ []) items.

(** [kept items items']: every item of [items] is at its position in
    [items'], with its file name, size and checksum, its disks coming
    first. *)
Definition kept (items items' : list Entry) : Prop :=
  ∀ j item, items !! j = Some item →
    ∃ item', items' !! j = Some item' ∧
      file_name item' = file_name item ∧
      size item' = size item ∧
      checksum item' = checksum item ∧
      disks item `prefix_of` disks item'.

End FileList.

(** [Config]: five named parameters, kept in a YAML file that is rewritten
    when one of them changes. A parameter holds [None] or a YAML value
    of type [V]; the files are a map from paths to documents. *)
Module Config.

(** The keys of the literal in [__init__]. *)
Definition names : list string :=
  ["vk_token"; "google_token"; "yandex_token"; "google_folder";
   "yandex_folder"].

Section config.

Context {V : Type} `{EqDecision V}.

(** What [yaml.safe_load] gives: [None] for an empty document, a dict for
    a mapping (the only documents [yaml.dump] of a dict writes). *)
Inductive Document :=
| Null
| Mapping (data : gmap string (option V)).

Definition Files := gmap string Document.

Record t := mk {
  _params : gmap string (option V);
  path : string
}.

(** The literal of [__init__]. *)
Definition blank : gmap string (option V) :=
  <["yandex_folder" := None]>
    (<["google_folder" := None]>
       (<["yandex_token" := None]>
          (<["google_token" := None]>
             (<["vk_token" := None]> ∅)))).

(** [for param in self._params.keys(): if param in data: ...]. *)
Definition load (data : gmap string (option V)) : gmap string (option V) :=
  foldl (λ params param,
           match data !! param with
           | Some value => <[param := value]> params
           | None => params
           end)
        blank names.

(** [Config(path)]; [None] is the [TypeError] of [param in data] on an
    empty document. *)
Definition init (files : Files) (path : string) : option t :=
  match files !! path with
  | None => Some (mk blank path)
  | Some (Mapping data) => Some (mk (load data) path)
  | Some Null => None
  end.

Definition get (cfg : t) (param : string) : option V :=
  match _params cfg !! param with
  | Some value => value
  | None => None
  end.

(** [raise Exception(f'Unknown parameter: \{param\}')]. *)
Inductive Failure := Exception (message : string).

(** [set]: the object and the files after the call, and what was raised
    if anything. *)
Definition set (cfg : t) (files : Files) (param : string) (value : option V)
  : t * Files * option Failure :=
  match _params cfg !! param with
  | None => (cfg, files, Some (Exception ("Unknown parameter: " +:+ param)))
  | Some old_value =>
      let params := <[param := value]> (_params cfg) in
      if decide (old_value ≠ value)
      then (mk params (path cfg),
            <[path cfg := Mapping params]> files, None)
      else (mk params (path cfg), files, None)
  end.

(** The objects a program can hold: made by [Config(path)], changed by
    [set] only. *)
Inductive built : t → Prop :=
| built_init files path cfg : init files path = Some cfg → built cfg
| built_set cfg files param value :
    built cfg → built (set cfg files param value).1.1.

End config.

Arguments Document : clear implicits.
Arguments Files : clear implicits.
Arguments t : clear implicits.

End Config.

End db.

(** ** modules/vk.py: the extension of a photo *)

Module vk.

(** [s.find(c)] for a one-character [c]: the lowest index, or -1. *)
Fixpoint find (c : ascii) (s : string) : Z :=
  match s with
  | EmptyString => -1
  | String a rest =>
      if Ascii.eqb a c then 0
      else let i := find c rest in
           if (i <? 0)%Z then -1 else i + 1
  end%Z.

(** [s.rfind(c)]: the highest index, or -1. *)
Fixpoint rfind (c : ascii) (s : string) : Z :=
  match s with
  | EmptyString => -1
  | String a rest =>
      let i := rfind c rest in
      if (i <? 0)%Z then (if Ascii.eqb a c then 0 else -1) else i + 1
  end%Z.

(** [s[start:stop]]: a negative bound counts from the end, and both are
    cut to the length. *)
Definition slice (s : string) (start stop : Z) : string :=
  let len := Z.of_nat (String.length s) in
  let bound i := if (i <? 0)%Z then Z.max 0 (i + len) else Z.min i len in
  String.substring (Z.to_nat (bound start))
    (Z.to_nat (bound stop - bound start)) s.

(** [s[start:]]. *)
Definition slice_from (s : string) (start : Z) : string :=
  slice s start (Z.of_nat (String.length s)).

(** [s.find(c, start)] for a [start] that is not negative. *)
Definition find_from (c : ascii) (s : string) (start : Z) : Z :=
  let i := find c (slice_from s start) in
  if (i <? 0)%Z then -1 else (start + i)%Z.

(** [VKPhotoSize.file_extension]. *)
Definition file_extension (url : string) : string :=
  let start_index := (rfind "/" url + 1)%Z in
  let name := slice url start_index (find_from "?" url start_index) in
  slice_from name (rfind "." name + 1)%Z.

(** *** [VKPhotoSize.__gt__] and [VKPhoto.max_size] *)

Definition VK_PHOTO_SIZE_TYPES : string := "smxopqryzw".

Record VKPhotoSize := mkVKPhotoSize {
  url : string;
  width : Z;
  height : Z;
  type : option string
}.

(** Truth value of [self.type]: a string that is not empty. *)
Definition typed (size : VKPhotoSize) : bool :=
  match type size with
  | Some (String _ _) => true
  | _ => false
  end.

(** [VK_PHOTO_SIZE_TYPES.index(self.type)]; [None] is the [ValueError]
    for a type that is not in the table. *)
Definition rank (size : VKPhotoSize) : option nat :=
  String.index 0 (default EmptyString (type size)) VK_PHOTO_SIZE_TYPES.

Definition area (size : VKPhotoSize) : Z := (width size * height size)%Z.

(** [self > other]. *)
Definition gt (self other : VKPhotoSize) : option bool :=
  if typed self && typed other then
    match rank self, rank other with
    | Some i, Some j => Some (j <? i)
    | _, _ => None
    end
  else Some (area other <? area self)%Z.

(** [max] from the second element on: [item > maxitem] decides. *)
Fixpoint max_from (maxitem : VKPhotoSize) (sizes : list VKPhotoSize)
  : option VKPhotoSize :=
  match sizes with
  | [] => Some maxitem
  | item :: rest =>
      match gt item maxitem with
      | Some true => max_from item rest
      | Some false => max_from maxitem rest
      | None => None
      end
  end.

(** [max(self.sizes)]; [None] is a [ValueError], of [max] for no size at
    all or of [index]. *)
Definition max_size (sizes : list VKPhotoSize) : option VKPhotoSize :=
  match sizes with
  | [] => None
  | first :: rest => max_from first rest
  end.

(** *** [VKPhotoAlbum.get_photos]: the pages of an album *)

Definition VK_PHOTOS_MAX_IPR : Z := 1000.

(** [range(start, stop, step)] for a positive [step]. *)
Definition range (start stop step : Z) : list Z :=
  (λ k, start + step * Z.of_nat k)%Z
    <$> seq 0 (Z.to_nat ((stop - start + step - 1) / step)).

Section album.

Context {A : Type}.

(** What [photos_get] gives back: an exception of [_is_error], or the
    ['items'] of the response (none when the key is missing). *)
Inductive Response :=
| ApiError (error_code : Z)
| Items (items : list A).

Inductive Photos :=
| Returned (result : list A)
| Raised (error_code : Z).

(** The [for offset in range(...)] loop; [photos_get offset count] is the
    answer to the request with that offset and count. *)
Fixpoint get_pages (photos_get : Z → Z → Response) (count : Z)
    (offsets : list Z) (result : list A) : Photos :=
  match offsets with
  | [] => Returned result
  | offset :: rest =>
      let estimate_count :=
        if (count <? VK_PHOTOS_MAX_IPR)%Z then count else VK_PHOTOS_MAX_IPR in
      match photos_get offset estimate_count with
      | ApiError error_code => Raised error_code
      | Items items =>
          if length items =? 0 then Returned result
          else get_pages photos_get count rest (result ++ items)
      end
  end.

(** [VKPhotoAlbum.get_photos] of an album of [size] photos; [count] is
    [None] or an integer, falsy when it is 0. *)
Definition get_photos (size : Z) (photos_get : Z → Z → Response)
    (offset : Z) (count : option Z) : Photos :=
  let count :=
    match count with
    | Some count => if (count =? 0)%Z then (size - offset)%Z else count
    | None => (size - offset)%Z
    end in
  get_pages photos_get count (range offset (count + offset) VK_PHOTOS_MAX_IPR)
    [].

(** A server that holds the photos [all] of the album and answers with
    the [count] photos from [offset] on. *)
Definition holds (all : list A) (photos_get : Z → Z → Response) : Prop :=
  ∀ offset count,
    photos_get offset count =
    Items (take (Z.to_nat count) (drop (Z.to_nat offset) all)).

End album.

Arguments Response : clear implicits.
Arguments Photos : clear implicits.

End vk.

(** ** main.py *)

Module main.

(** *** Strings *)

(** [item.startswith(prefix)]. *)
Definition startswith (item prefix : string) : bool := String.prefix prefix item.

(** [s.replace('.', new)]: every full stop of [s] becomes [new]. *)
Fixpoint replace_dot (new s : string) : string :=
  match s with
  | EmptyString => EmptyString
  | String c rest =>
      if Ascii.eqb c "."%char then new +:+ replace_dot new rest
      else String c (replace_dot new rest)
  end.

(** No full stop in the string. *)
Fixpoint dotless (s : string) : bool :=
  match s with
  | EmptyString => true
  | String c rest => negb (Ascii.eqb c "."%char) && dotless rest
  end.

(** A run of [n] zeros, and ['%0<width>d'] on a rendered number. *)
Fixpoint zeros (n : nat) : string :=
  match n with
  | O => EmptyString
  | S n => String "0"%char (zeros n)
  end.

Definition zfill (width : nat) (s : string) : string :=
  zeros (width - String.length s) +:+ s.

(** [photo.date.date()]: a calendar day. *)
Record Date := mkDate { year : N; month : N; day : N }.

(** [str(photo.date.date())], the ISO form [YYYY-MM-DD]. *)
Definition isoformat (d : Date) : string :=
  zfill 4 (pretty (year d)) +:+ "-" +:+ zfill 2 (pretty (month d))
  +:+ "-" +:+ zfill 2 (pretty (day d)).

(** *** The photo, as the body of the [for photo in ...] loop sees it

    [likes_count] is [photo.likes_count] (an [int], or [None] when the
    source sent no likes); the other fields are the locals computed at the
    top of the body: [file_ext], [mime_type], [str(size)] and
    [md5 = checksum(image_data)], which stands for the content. *)
Record Photo := mkPhoto {
  likes_count : option Z;
  date : Date;
  file_ext : string;
  mime_type : string;
  size : string;
  md5 : string
}.

(** [f'{photo.likes_count}']. *)
Definition likes (p : Photo) : string :=
  match likes_count p with
  | Some n => pretty n
  | None => "None"
  end.

(** *** The two clouds and what their clients answer *)

Inductive Cloud := GoogleDrive | YandexDisk.

#[global] Instance Cloud_eq_dec : EqDecision Cloud.
Proof. solve_decision. Defined.

(** The variables [gdrive] and [yadisk]: [False] when the user did not
    choose the cloud, the client object once initialised, [None] after the
    cloud ran out of space. *)
Inductive Drive := NotChosen | Client | Stopped.

(** [isinstance(gdrive, google.GoogleDriveItem)], [if yadisk:] and the
    [gdrive and ...] / [yadisk and ...] of the naming loop: all hold of the
    client object only. *)
Definition live (d : Drive) : bool :=
  match d with
  | Client => true
  | NotChosen | Stopped => false
  end.

(** What [gdrive.upload_file(...)] / [yadisk.upload(...)] does: return a
    truthy value, return a falsy one, raise the cloud's out-of-space
    exception ([google.StorageQuotaExceeded],
    [yandex.InsufficientStorageException]), or raise any other
    [Exception], whose [str(error)] is kept. *)
Inductive Reply :=
| Done
| Nothing
| OutOfSpace
| Broken (error : string).

(** The journal: calls to the clients and log lines. *)
Inductive Event :=
| Upload (c : Cloud) (file_name md5 : string) (r : Reply)
| FileExist (c : Cloud) (file_name exist_file_name : string)
| FileUploaded (c : Cloud) (file_name size : string)
| NotEnoughDiskSpace (c : Cloud)
| AlreadyInList (c : Cloud) (file_name : string)
| UploadFailed (c : Cloud) (file_name error : string) (attempts_left : nat).

(** A client answers from what happened so far and from the call. *)
Definition Adapter := list Event → Cloud → string → string → Reply.

(** *** The variables of the loop *)

Record State := mkState {
  gdrive : Drive;
  yadisk : Drive;
  gdrive_path : string;
  yandex_path : string;
  google_folder_files_list : gmap string string;
  yandex_folder_files_list : gmap string string;
  files_list : list db.Entry;
  journal : list Event
}.

Definition drive (c : Cloud) (st : State) : Drive :=
  match c with
  | GoogleDrive => gdrive st
  | YandexDisk => yadisk st
  end.

Definition folder_files_list (c : Cloud) (st : State) : gmap string string :=
  match c with
  | GoogleDrive => google_folder_files_list st
  | YandexDisk => yandex_folder_files_list st
  end.

(** [f'google:/{gdrive_path}'] and [f'yandex:/{yandex_path}']. *)
Definition disk (c : Cloud) (st : State) : string :=
  match c with
  | GoogleDrive => "google:/" +:+ gdrive_path st
  | YandexDisk => "yandex:/" +:+ yandex_path st
  end.

(** [gdrive = None] / [yadisk = None]. *)
Definition stop (c : Cloud) (st : State) : State :=
  match c with
  | GoogleDrive =>
      mkState Stopped (yadisk st) (gdrive_path st) (yandex_path st)
        (google_folder_files_list st) (yandex_folder_files_list st)
        (files_list st) (journal st)
  | YandexDisk =>
      mkState (gdrive st) Stopped (gdrive_path st) (yandex_path st)
        (google_folder_files_list st) (yandex_folder_files_list st)
        (files_list st) (journal st)
  end.

(** [google_folder_files_list[md5] = file_name] and its Yandex twin. *)
Definition record (c : Cloud) (md5 file_name : string) (st : State) : State :=
  match c with
  | GoogleDrive =>
      mkState (gdrive st) (yadisk st) (gdrive_path st) (yandex_path st)
        (<[md5 := file_name]> (google_folder_files_list st))
        (yandex_folder_files_list st) (files_list st) (journal st)
  | YandexDisk =>
      mkState (gdrive st) (yadisk st) (gdrive_path st) (yandex_path st)
        (google_folder_files_list st)
        (<[md5 := file_name]> (yandex_folder_files_list st))
        (files_list st) (journal st)
  end.

Definition with_files_list (items : list db.Entry) (st : State) : State :=
  mkState (gdrive st) (yadisk st) (gdrive_path st) (yandex_path st)
    (google_folder_files_list st) (yandex_folder_files_list st)
    items (journal st).

Definition note (e : Event) (st : State) : State :=
  mkState (gdrive st) (yadisk st) (gdrive_path st) (yandex_path st)
    (google_folder_files_list st) (yandex_folder_files_list st)
    (files_list st) (journal st ++ [e]).

(** Several journal lines in a row. *)
Definition notes (es : list Event) (st : State) : State :=
  foldl (λ st e, note e st) st es.

(** *** Building the two dictionaries before the loop *)

(** An item of [data['files']]: the key ['md5Checksum'] may be missing. *)
Record GoogleFile := mkGoogleFile {
  md5Checksum : option string;
  name : string
}.

(** [for item in data['files']: if 'md5Checksum' in item: ...]. *)
Definition google_listing (files : list GoogleFile) : gmap string string :=
  fold_left
    (λ d item,
       match md5Checksum item with
       | Some h => <[h := name item]> d
       | None => d
       end)
    files ∅.

(** [for item in yadisk.files_list(...)]: pairs [(item['md5'], item['name'])]. *)
Definition yandex_listing (files : list (string * string)) : gmap string string :=
  fold_left (λ d item, <[item.1 := item.2]> d) files ∅.

(** *** The naming loop *)

(** [d.values()]. *)
Definition values (d : gmap string string) : list string :=
  (map_to_list d).*2.

(** [any([True for item in d.values() if file_name == item])]. *)
Definition taken (d : gmap string string) (file_name : string) : bool :=
  bool_decide (file_name ∈ values d).

(** Truth value of [d.get(md5)]: a name that is not the empty string. *)
Definition truthy (o : option string) : bool :=
  match o with
  | Some s => negb (String.eqb s "")
  | None => false
  end.

(** [len([True for item in d.values() if item.startswith(prefix)])]. *)
Definition count_startswith (d : gmap string string) (prefix : string) : nat :=
  length (List.filter (λ item, startswith item prefix) (values d)).

(** [f'{photo.likes_count}.{file_ext}']. *)
Definition first_name (p : Photo) : string :=
  likes p +:+ "." +:+ file_ext p.

(** The four lines that rename: the dated name, and
    [file_name.replace('.', f'(\{i\}).')] when [i] is not zero. *)
Definition dated_name (p : Photo) (i : nat) : string :=
  let file_name := likes p +:+ "_" +:+ isoformat (date p) +:+ "." +:+ file_ext p in
  match i with
  | O => file_name
  | S _ => replace_dot ("(" +:+ pretty i +:+ ").") file_name
  end.

(** The guard of one of the two blocks of the [while True] loop:
    the cloud is on, the name is among the values, and [d.get(md5)] is
    falsy. *)
Definition clash (c : Cloud) (st : State) (p : Photo) (file_name : string) : bool :=
  live (drive c st)
  && taken (folder_files_list c st) file_name
  && negb (truthy (folder_files_list c st !! md5 p)).

(** The value [i] gets in the block of cloud [c]. *)
Definition index (c : Cloud) (st : State) (p : Photo) : nat :=
  count_startswith (folder_files_list c st) (likes p +:+ "_").

(** [while True: ...] on the pair [(file_name, i)]; [fuel] bounds the
    number of times the body runs, [None] means it was not enough. *)
Fixpoint resolve (fuel : nat) (st : State) (p : Photo)
    (file_name : string) (i : nat) : option (string * nat) :=
  match fuel with
  | O => None
  | S fuel =>
      if clash GoogleDrive st p file_name then
        let i := index GoogleDrive st p in
        let file_name := dated_name p i in
        let i := i + 1 in
        resolve fuel st p file_name i
      else if clash YandexDisk st p file_name then
        let i := index YandexDisk st p in
        let file_name := dated_name p i in
        let i := i + 1 in
        resolve fuel st p file_name i
      else Some (file_name, i)
  end.

(** *** The two upload loops *)

(** The body of [for retry in range(0, 3)] for cloud [c] (lines 151-168
    for Google, 170-187 for Yandex); the boolean is true when the body
    ends in [break]. A falsy return of the client falls through the
    [elif]; [FileAlreadyExistInFileList] is caught after the dictionary
    was written, and the loop goes on. *)
Definition attempt (adapter : Adapter) (c : Cloud) (p : Photo)
    (file_name : string) (retry : nat) (st : State) : State * bool :=
  if live (drive c st) then
    let exist_file_name := folder_files_list c st !! md5 p in
    if truthy exist_file_name then
      (note (FileExist c file_name (default "" exist_file_name)) st, true)
    else
      let r := adapter (journal st) c file_name (md5 p) in
      let st := note (Upload c file_name (md5 p) r) st in
      match r with
      | Done =>
          let st := note (FileUploaded c file_name (size p)) st in
          let st := record c (md5 p) file_name st in
          match db.FileList.add (files_list st) file_name (size p) (md5 p)
                  (disk c st) with
          | (items, db.Returned) => (with_files_list items st, true)
          | (items, db.Raised _) =>
              (note (AlreadyInList c file_name) (with_files_list items st),
               false)
          end
      | Nothing => (st, false)
      | OutOfSpace => (stop c (note (NotEnoughDiskSpace c) st), false)
      | Broken error =>
          (note (UploadFailed c file_name error (2 - retry)) st, false)
      end
  else (st, false).

Fixpoint attempts (adapter : Adapter) (c : Cloud) (p : Photo)
    (file_name : string) (retries : list nat) (st : State) : State :=
  match retries with
  | [] => st
  | retry :: rest =>
      let '(st, break) := attempt adapter c p file_name retry st in
      if break then st else attempts adapter c p file_name rest st
  end.

(** [for retry in range(0, 3): ...]. *)
Definition upload (adapter : Adapter) (c : Cloud) (p : Photo)
    (file_name : string) (st : State) : State :=
  attempts adapter c p file_name (seq 0 3) st.

(** *** One photo, and the whole list *)

Definition photo_step (adapter : Adapter) (fuel : nat) (st : State) (p : Photo)
  : option State :=
  match resolve fuel st p (first_name p) 0 with
  | None => None
  | Some (file_name, _) =>
      Some (upload adapter YandexDisk p file_name
              (upload adapter GoogleDrive p file_name st))
  end.

Fixpoint run (adapter : Adapter) (fuel : nat) (st : State) (photos : list Photo)
  : option State :=
  match photos with
  | [] => Some st
  | p :: rest =>
      match photo_step adapter fuel st p with
      | None => None
      | Some st => run adapter fuel st rest
      end
  end.

(** *** Order in a journal *)

(** [before R j]: [R x y] holds whenever [x] comes earlier than [y] in [j]. *)
Definition before {A} (R : A → A → Prop) (j : list A) : Prop :=
  ∀ i k x y, i < k → j !! i = Some x → j !! k = Some y → R x y.

(** Is the journal line a call to the client of cloud [c]? *)
Definition is_call (c : Cloud) (e : Event) : bool :=
  match e with
  | Upload c' _ _ _ => bool_decide (c' = c)
  | _ => false
  end.

(** The names under which the client of cloud [c] was called, in order. *)
Definition sent (c : Cloud) (j : list Event) : list string :=
  omap (λ e, match e with
             | Upload c' n _ _ => if decide (c' = c) then Some n else None
             | _ => None
             end) j.







(** Case analysis along the branches of [attempt]. *)
Ltac attempt_cases adapter c p file_name st :=
  unfold attempt;
  destruct (live (drive c st)) eqn:Hlive;
  [ destruct (truthy (folder_files_list c st !! md5 p)) eqn:Htruthy;
    [ | destruct (adapter (journal st) c file_name (md5 p))
          as [| | |error] eqn:Hreply;
        [ destruct (db.FileList.add _ _ _ _ _) as [items [|e]] eqn:Hadd
        | | | ] ]
  | ].

End main.

(** ** modules/yandex.py *)

Module yandex.

(** *** [YaDisk.upload]: the loop of PUT requests *)

(** How [upload] ends: [return True], or one of its four [raise]; the last
    one is the plain [Exception] that carries the HTTP status code. *)
Inductive Uploaded :=
| ReturnedTrue
| PreconditionFailedException
| PayloadTooLargeException
| InsufficientStorageException
| Exceeded (status_code : Z).

(** The [while True] loop of [upload]. [status k] is the status code of
    the PUT made after [k] earlier ones; the result carries the number of
    PUT requests made. *)
Fixpoint put_loop (fuel : nat) (status : nat → Z)
    (max_retry_count retry_count : Z) (puts : nat) : option (Uploaded * nat) :=
  match fuel with
  | O => None
  | S fuel =>
      let status_code := status puts in
      let puts := S puts in
      if ((status_code =? 201) || (status_code =? 202))%Z
      then Some (ReturnedTrue, puts)
      else if (status_code =? 412)%Z
      then Some (PreconditionFailedException, puts)
      else if (status_code =? 413)%Z
      then Some (PayloadTooLargeException, puts)
      else if (status_code =? 507)%Z
      then Some (InsufficientStorageException, puts)
      else
        let retry_count := (retry_count + 1)%Z in
        if (retry_count =? max_retry_count)%Z
        then Some (Exceeded status_code, puts)
        else put_loop fuel status max_retry_count retry_count puts
  end.

(** [upload] from [retry_count = 0] on (the folders and the upload link
    come before and are not part of this). *)
Definition upload (fuel : nat) (status : nat → Z) (max_retry_count : Z)
  : option (Uploaded * nat) :=
  put_loop fuel status max_retry_count 0 0.

(** The status codes that end the loop at once, and how. *)
Definition settles (status_code : Z) : option Uploaded :=
  if ((status_code =? 201) || (status_code =? 202))%Z then Some ReturnedTrue
  else if (status_code =? 412)%Z then Some PreconditionFailedException
  else if (status_code =? 413)%Z then Some PayloadTooLargeException
  else if (status_code =? 507)%Z then Some InsufficientStorageException
  else None.

(** *** [YaDisk.files_list]: the pages of a folder listing *)

Record Item := mkItem {
  path : string;
  name : string;
  md5 : string
}.

(** [response.json()]: a body with an ['error'] key, for which
    [_is_api_error] raises, or one with ['items']. *)
Inductive Response :=
| ApiError (message : string)
| Items (items : list Item).

Inductive Listed :=
| Result (result : list Item)
| ApiException (message : string).

(** [item['path'] == f'disk:\{folder_path\}\{item["name"]\}']. *)
Definition in_folder (folder_path : string) (item : Item) : bool :=
  String.eqb (path item) ("disk:" +:+ folder_path +:+ name item).

(** The [while True] loop of [files_list]: [server offset] is the answer
    to the request with that offset (the other parameters are the same
    in every request), [limit] is [params['limit']]. *)
Fixpoint pages (fuel : nat) (server : nat → Response) (folder_path : string)
    (limit offset : nat) (result : list Item) : option Listed :=
  match fuel with
  | O => None
  | S fuel =>
      match server offset with
      | ApiError message => Some (ApiException message)
      | Items items =>
          let count := length items in
          if count =? 0 then Some (Result result)
          else
            let result :=
              result ++ List.filter (in_folder folder_path) items in
            let offset := offset + limit in
            if count <? limit then Some (Result result)
            else pages fuel server folder_path limit offset result
      end
  end.

(** [s.endswith('/')]. *)
Fixpoint ends_with_slash (s : string) : bool :=
  match s with
  | EmptyString => false
  | String a EmptyString => Ascii.eqb a "/"
  | String _ rest => ends_with_slash rest
  end.

(** [s.replace('//', '/')]: from the left, every two slashes in a row
    become one, and the search goes on after them. *)
Fixpoint replace_slashes (s : string) : string :=
  match s with
  | String a (String b rest as tail) =>
      if Ascii.eqb a "/" && Ascii.eqb b "/"
      then String "/" (replace_slashes rest)
      else String a (replace_slashes tail)
  | _ => s
  end.

(** The first three lines of [files_list]. *)
Definition normalize (folder_path : string) : string :=
  let folder_path :=
    if main.startswith folder_path "/" then folder_path
    else "/" +:+ folder_path in
  let folder_path :=
    if ends_with_slash folder_path then folder_path
    else folder_path +:+ "/" in
  replace_slashes folder_path.

Definition files_list (fuel : nat) (server : nat → Response)
    (folder_path : string) : option Listed :=
  pages fuel server (normalize folder_path) 1000 0 [].

(** A server that holds the files [all] and answers a request with the
    [limit] files from [offset] on. *)
Definition serves (all : list Item) (limit : nat) (server : nat → Response)
  : Prop :=
  ∀ offset, server offset = Items (take limit (drop offset all)).

End yandex.

(** ** modules/oauth.py: the parameters of a redirect URL *)

Module oauth.

(** [c in s] for a one-character [c]. *)
Fixpoint contains (c : ascii) (s : string) : bool :=
  match s with
  | EmptyString => false
  | String a rest => Ascii.eqb a c || contains c rest
  end.

(** [s.count(c)]. *)
Fixpoint count (c : ascii) (s : string) : nat :=
  match s with
  | EmptyString => 0
  | String a rest => (if Ascii.eqb a c then 1 else 0) + count c rest
  end.

(** [s.split(sep)] for a one-character [sep]: the pieces between the
    separators, one more than there are separators. *)
Fixpoint split (sep : ascii) (s : string) : list string :=
  match s with
  | EmptyString => [EmptyString]
  | String a rest =>
      if Ascii.eqb a sep then EmptyString :: split sep rest
      else match split sep rest with
           | piece :: pieces => String a piece :: pieces
           | [] => [String a EmptyString]
           end
  end.

(** [sep.join(pieces)]. *)
Fixpoint join (sep : ascii) (pieces : list string) : string :=
  match pieces with
  | [] => EmptyString
  | [piece] => piece
  | piece :: pieces => piece +:+ String sep (join sep pieces)
  end.

(** [key, value = param.split('=')]; [None] is the [ValueError] of
    unpacking anything but two pieces. *)
Definition key_value (param : string) : option (string * string) :=
  match split "=" param with
  | [key; value] => Some (key, value)
  | _ => None
  end.

(** The body of [for param in params.split('&')]; once [None], the
    [ValueError] stays. *)
Definition assign (result : option (gmap string string)) (param : string)
  : option (gmap string string) :=
  match result, key_value param with
  | Some result, Some (key, value) => Some (<[key := value]> result)
  | _, _ => None
  end.

(** [parse_url_get_params]; [None] is the [ValueError]. *)
Definition parse_url_get_params (url : string) : option (gmap string string) :=
  if negb (contains "?" url) then Some ∅
  else
    let params := nth 1 (split "?" url) EmptyString in
    foldl assign (Some ∅) (split "&" params).

(** None of [?], [&] and [=] in the string. *)
Definition plain (s : string) : bool :=
  negb (contains "?" s) && negb (contains "&" s) && negb (contains "=" s).

(** [f'\{key\}=\{value\}']. *)
Definition pair_text (kv : string * string) : string :=
  kv.1 +:+ String "=" kv.2.

End oauth.

(** ** modules/google.py: the pages of a file listing *)

Module google.

(** A response body without ['error']: the keys ['files'] and
    ['nextPageToken'], each of which may be missing. *)
Record Data := mkData {
  files : option (list main.GoogleFile);
  nextPageToken : option string
}.

(** A response body: an ['error'] with its code and the reason of its
    first entry, or data. *)
Inductive Response :=
| Error (code : Z) (reason : string)
| Body (data : Data).

Inductive Raise :=
| FileNotFoundError
| StorageQuotaExceeded
| GoogleDriveUnknownError (code : Z)
| KeyError.

(** What [_is_error(response)] raises for an error when it is not
    silent. *)
Definition _is_error (code : Z) (reason : string) : Raise :=
  if (code =? 404)%Z then FileNotFoundError
  else if (code =? 403)%Z && String.eqb reason "storageQuotaExceeded"
  then StorageQuotaExceeded
  else GoogleDriveUnknownError code.

Inductive Listed :=
| ReturnedNone
| Returned (result : Data)
| Raised (e : Raise).

(** [if result is None: result = data / elif 'files' in data and
    len(data['files']): result['files'] += data['files']]; [None] is the
    [KeyError] of a [result] without ['files']. *)
Definition merge (result : option Data) (data : Data) : option Data :=
  match result with
  | None => Some data
  | Some result =>
      match files data with
      | Some ((_ :: _) as more) =>
          match files result with
          | Some held =>
              Some (mkData (Some (held ++ more)) (nextPageToken result))
          | None => None
          end
      | _ => Some result
      end
  end.

(** The [while True] loop of [GoogleDriveAPIv3.files_list]: [server] maps
    [params['pageToken']] (missing at first) to the response body. *)
Fixpoint pages (fuel : nat) (server : option string → Response)
    (pageToken : option string) (result : option Data) : option Listed :=
  match fuel with
  | O => None
  | S fuel =>
      match server pageToken with
      | Error code reason =>
          if (code =? 404)%Z then Some ReturnedNone
          else Some (Raised (_is_error code reason))
      | Body data =>
          match merge result data with
          | None => Some (Raised KeyError)
          | Some result =>
              match nextPageToken data with
              | Some (String _ _ as token) =>
                  pages fuel server (Some token) (Some result)
              | _ => Some (Returned result)
              end
          end
      end
  end.

Definition files_list (fuel : nat) (server : option string → Response)
  : option Listed :=
  pages fuel server None None.

(** The server answers the request with [pageToken] by the first of
    [bodies], which names the token for the next one, and so on to the
    last, which names none. *)
Fixpoint chain (server : option string → Response)
    (pageToken : option string) (bodies : list Data) : Prop :=
  match bodies with
  | [] => False
  | data :: rest =>
      server pageToken = Body data ∧
      match rest with
      | [] => nextPageToken data = None ∨ nextPageToken data = Some ""
      | _ :: _ =>
          ∃ token, nextPageToken data = Some token ∧ token ≠ "" ∧
                   chain server (Some token) rest
      end
  end.

(** The files of a body, none when the key is missing. *)
Definition files_of (data : Data) : list main.GoogleFile :=
  default [] (files data).

End google.

(** ** main.py: the dictionaries of the two folders, from the listings *)

Module setup.

(** What lines 95-99 of [main] come to: a [TypeError] for ['files' in
    None], an exception of [files_list], or the dictionary. *)
Inductive Inventory :=
| TypeError
| Failed (e : google.Raise)
| Built (d : gmap string string).

(** [data = gdrive.api.files_list(...)] and the loop over
    [data['files']]. *)
Definition google_inventory (fuel : nat)
    (server : option string → google.Response) : option Inventory :=
  match google.files_list fuel server with
  | None => None
  | Some google.ReturnedNone => Some TypeError
  | Some (google.Raised e) => Some (Failed e)
  | Some (google.Returned data) =>
      match google.files data with
      | Some ((_ :: _) as files) => Some (Built (main.google_listing files))
      | _ => Some (Built ∅)
      end
  end.

(** [(item['md5'], item['name'])] of an item of the listing. *)
Definition md5_name (item : yandex.Item) : string * string :=
  (yandex.md5 item, yandex.name item).

(** [for item in yadisk.files_list(yandex_path, 'image', 'items.md5'):
    yandex_folder_files_list[item['md5']] = item['name']]; the message is
    that of the exception [files_list] raised. *)
Definition yandex_inventory (fuel : nat) (server : nat → yandex.Response)
    (yandex_path : string) : option (string + gmap string string) :=
  match yandex.files_list fuel server yandex_path with
  | None => None
  | Some (yandex.ApiException message) => Some (inl message)
  | Some (yandex.Result items) =>
      Some (inr (main.yandex_listing (md5_name <$> items)))
  end.

End setup.

(** ** Concrete data for the examples *)

Module example.
Import main.

Definition e1 : db.Entry := db.mkEntry "5.jpg" "w" "abc" ["A"].
Definition e12 : db.Entry := db.mkEntry "5.jpg" "w" "abc" ["A"; "B"].

(** Both clouds chosen, Google already holding content "h3" as "3.jpg". *)
Definition seeded : State :=
  mkState Client Client "/g/" "/y/" {["h3" := "3.jpg"]} ∅ [] [].

Definition photo (n : Z) (d : N) (h : string) : Photo :=
  mkPhoto (Some n) (mkDate 2021 5 d) "jpg" "image/jpeg" "w" h.

Definition always_done : Adapter := λ _ _ _ _, Done.

Definition always_broken : Adapter := λ _ _ _ _, Broken "timeout".

(** Both clouds chosen, nothing on them yet. *)
Definition fresh : State := mkState Client Client "/g/" "/y/" ∅ ∅ [] [].


(** Only cloud [c] chosen, nothing on it, nothing done yet. *)
Definition only (c : Cloud) (gdrive_path yandex_path : string) : State :=
  mkState (if decide (c = GoogleDrive) then Client else NotChosen)
          (if decide (c = YandexDisk) then Client else NotChosen)
          gdrive_path yandex_path ∅ ∅ [] [].





Definition url : string :=
  "https://sun9-1.userapi.com/impg/c1/v1/photo.jpg?size=1280x720&type=album".

Definition listed : list GoogleFile :=
  [mkGoogleFile (Some "h") "a.jpg"; mkGoogleFile (Some "h") "b.jpg"].

(** Both clouds chosen and empty, the manifest holding one file from an
    earlier run on another disk. *)
Definition archived : State :=
  mkState Client Client "/g/" "/y/" ∅ ∅ [e1] [].


(** Google not chosen, Yandex out of space. *)
Definition idle : State :=
  mkState NotChosen Stopped "/g/" "/y/" ∅ {["h3" := "3.jpg"]} [e1] [].

(** A server that is busy at the first request and accepts the second. *)
Definition busy_once : nat → Z := λ k, if k =? 0 then 500%Z else 201%Z.

(** A Yandex folder with one photo, and one more in a folder below. *)
Definition disk_files : list yandex.Item :=
  [yandex.mkItem "disk:/photos/10.jpg" "10.jpg" "h1";
   yandex.mkItem "disk:/photos/old/7.jpg" "7.jpg" "h2"].

Definition disk_server : nat → yandex.Response :=
  λ offset, yandex.Items (take 1000 (drop offset disk_files)).

(** The sizes of a photo as the API lists them, and the same without
    types. *)
Definition typed_sizes : list vk.VKPhotoSize :=
  [vk.mkVKPhotoSize "u1" 130 87 (Some "m");
   vk.mkVKPhotoSize "u2" 1280 853 (Some "z");
   vk.mkVKPhotoSize "u3" 75 50 (Some "s");
   vk.mkVKPhotoSize "u4" 1280 853 (Some "z")].

Definition bare_sizes : list vk.VKPhotoSize :=
  [vk.mkVKPhotoSize "u1" 130 87 None;
   vk.mkVKPhotoSize "u2" 1280 853 None;
   vk.mkVKPhotoSize "u3" 75 50 (Some "")].

(** A size of a type that the table does not have. *)
Definition odd_sizes : list vk.VKPhotoSize :=
  [vk.mkVKPhotoSize "u1" 130 87 (Some "m");
   vk.mkVKPhotoSize "u2" 2560 1706 (Some "a")].

(** A Google folder listed in two pages, the same content under two
    names. *)
Definition first_page : google.Data :=
  google.mkData (Some [mkGoogleFile (Some "h") "a.jpg"]) (Some "t1").

Definition second_page : google.Data :=
  google.mkData (Some [mkGoogleFile (Some "h") "b.jpg";
                       mkGoogleFile None "notes"]) None.

Definition drive_server : option string → google.Response :=
  λ pageToken,
    match pageToken with
    | None => google.Body first_page
    | Some _ => google.Body second_page
    end.

(** The pairs of a redirect URL, one key coming twice. *)
Definition redirect_pairs : list (string * string) :=
  [("code", "abc"); ("state", "1"); ("code", "xyz")].

(** A configuration object made where no file is yet. *)
Definition new_config : db.Config.t string :=
  db.Config.mk db.Config.blank "config.yaml".

(** A configuration file with one known key and one that is not. *)
Definition config_files : db.Config.Files string :=
  {["config.yaml" :=
      db.Config.Mapping {["vk_token" := Some "t"; "junk" := Some "x"]}]}.

End example.

(** * Facts *)

Import main.

(** ** The manifest *)

Section FileList_facts.
Import db.FileList.

Implicit Types (items : list db.Entry) (item : db.Entry).
Implicit Types (name size checksum disk key : string).

Lemma get_Some items key i item :
  get items key = Some (i, item) ↔
  items !! i = Some item ∧ hit key item ∧
  ∀ j y, items !! j = Some y → j < i → ¬ hit key y.
Proof. apply list_find_Some. Qed.

Lemma get_None items key :
  get items key = None ↔ ∀ item, item ∈ items → ¬ hit key item.
Proof. unfold get. rewrite list_find_None, Forall_forall. done. Qed.

Lemma get_or_Some items name checksum i item :
  get_or items name checksum = Some (i, item) →
  items !! i = Some item ∧ matches name checksum item.
Proof.
  unfold get_or, matches. destruct (get items name) as [[j y]|] eqn:E.
  - intros [= -> ->]. apply get_Some in E as (? & ? & _).
    split; [done|by left].
  - intros E'. apply get_Some in E' as (? & ? & _).
    split; [done|by right].
Qed.

Lemma get_or_None items name checksum :
  get_or items name checksum = None ↔
  ∀ item, item ∈ items → ¬ matches name checksum item.
Proof.
  unfold get_or, matches. destruct (get items name) as [[j y]|] eqn:E.
  - split; [done|]. intros H. apply get_Some in E as (El & Eh & _).
    exfalso. apply (H y); [by eapply list_elem_of_lookup_2 | by left].
  - rewrite get_None in E. rewrite get_None. split.
    + intros H item Hin [Hn|Hc]; [by apply (E item)|by apply (H item)].
    + intros H item Hin Hc. apply (H item Hin). by right.
Qed.

Lemma get_or_found items name checksum :
  (∃ item, item ∈ items ∧ matches name checksum item) →
  ∃ i item, get_or items name checksum = Some (i, item).
Proof.
  intros (item & Hin & Hm).
  destruct (get_or items name checksum) as [[i y]|] eqn:E; [by eauto|].
  rewrite get_or_None in E. by destruct (E item Hin).
Qed.

(** C4. [FileList.add]: when an item of the list matches the name or the
    checksum (its file name or its checksum equals one of the two, the
    test of [FileList.get]), the item that [add] looks up is such a
    matching item, and: if the disk is not in its [disks], the disk is
    appended to it and the call returns; if the disk is there, the call
    raises [FileAlreadyExistInFileList] and the list is as before, so no
    second item appears. When no item matches, one new item is put at the
    end. Adding ("5.jpg", "abc", "A") and then ("5.jpg", "abc", "B")
    gives one item with disks ["A"; "B"]; adding the same once more
    raises and the list still has one item. *)
Theorem add_appends_or_creates items name size checksum disk :
  ((∃ item, item ∈ items ∧ matches name checksum item) →
   ∃ i item,
     get_or items name checksum = Some (i, item) ∧
     items !! i = Some item ∧ matches name checksum item ∧
     (disk ∉ db.disks item →
      add items name size checksum disk =
        (<[i := append_disk disk item]> items, db.Returned)) ∧
     (disk ∈ db.disks item →
      ∃ e, add items name size checksum disk = (items, db.Raised e)))
  ∧ ((∀ item, item ∈ items → ¬ matches name checksum item) →
     add items name size checksum disk =
       (items ++ [db.mkEntry name size checksum [disk]], db.Returned))
  ∧ (add [] "5.jpg" size "abc" "A" =
       ([db.mkEntry "5.jpg" size "abc" ["A"]], db.Returned)
     ∧ add [db.mkEntry "5.jpg" size "abc" ["A"]] "5.jpg" size "abc" "B" =
       ([db.mkEntry "5.jpg" size "abc" ["A"; "B"]], db.Returned)
     ∧ ∃ e, add [db.mkEntry "5.jpg" size "abc" ["A"; "B"]]
              "5.jpg" size "abc" "B" =
            ([db.mkEntry "5.jpg" size "abc" ["A"; "B"]], db.Raised e)).
Proof.
  split; [|split].
  - intros Hex. destruct (get_or_found _ _ _ Hex) as (i & item & Hget).
    destruct (get_or_Some _ _ _ _ _ Hget) as [Hl Hm].
    exists i, item. repeat split; try done.
    + intros Hd. unfold add. rewrite Hget. by rewrite decide_False.
    + intros Hd. unfold add. rewrite Hget. rewrite decide_True by done. eauto.
  - intros Hno. apply get_or_None in Hno. unfold add. by rewrite Hno.
  - repeat split; [done..|]. eexists. reflexivity.
Qed.

Lemma add_appends_or_creates_witness :
  add [example.e1] "5.jpg" "w" "abc" "B" = ([example.e12], db.Returned).
Proof.
  destruct (add_appends_or_creates [example.e1] "5.jpg" "w" "abc" "B")
    as [H _].
  destruct H as (i & item & Hget & _ & _ & Happend & _).
  - exists example.e1. split; [apply list_elem_of_singleton; reflexivity|].
    left. left. reflexivity.
  - vm_compute in Hget. injection Hget as <- <-.
    rewrite Happend; [reflexivity|].
    unfold example.e1; simpl. intros Hin.
    apply list_elem_of_singleton in Hin. discriminate Hin.
Defined.

Lemma get_or_prefers_name items name checksum found :
  get items name = Some found → get_or items name checksum = Some found.
Proof. intros H. unfold get_or. by rewrite H. Qed.


(** When the matching item is the only one, it is the one looked up. *)
Lemma get_or_single_match items name checksum item :
  item ∈ items → matches name checksum item →
  (∀ other, other ∈ items → matches name checksum other → other = item) →
  ∃ i, get_or items name checksum = Some (i, item).
Proof.
  intros Hin Hm Hone.
  destruct (get_or_found items name checksum) as (i & found & Hget);
    [by exists item|].
  destruct (get_or_Some _ _ _ _ _ Hget) as [Hl Hm'].
  exists i. rewrite Hget. do 2 f_equal.
  apply Hone; [by eapply list_elem_of_lookup_2|done].
Qed.


End FileList_facts.

(** ** The dictionaries built from the remote listings *)

Section listing_facts.

Lemma fold_google (files : list GoogleFile) (d : gmap string string) h :
  fold_left
    (λ d item,
       match md5Checksum item with
       | Some h => <[h := name item]> d
       | None => d
       end) files d !! h =
  match last (filter (λ item, md5Checksum item = Some h) files) with
  | Some item => Some (name item)
  | None => d !! h
  end.
Proof.
  revert d. induction files as [|x files IH]; intros d; [done|].
  simpl fold_left. rewrite IH. rewrite filter_cons.
  destruct (decide (md5Checksum x = Some h)) as [E|E].
  - rewrite last_cons.
    destruct (last (filter _ files)); [done|].
    rewrite E. by rewrite lookup_insert_eq.
  - destruct (last (filter _ files)); [done|].
    destruct (md5Checksum x) as [h'|]; [|done].
    rewrite lookup_insert_ne; [done|congruence].
Qed.

Lemma fold_yandex (files : list (string * string)) (d : gmap string string) h :
  fold_left (λ d item, <[item.1 := item.2]> d) files d !! h =
  match last (filter (λ item, item.1 = h) files) with
  | Some item => Some item.2
  | None => d !! h
  end.
Proof.
  revert d. induction files as [|x files IH]; intros d; [done|].
  simpl fold_left. rewrite IH. rewrite filter_cons.
  destruct (decide (x.1 = h)) as [E|E].
  - rewrite last_cons.
    destruct (last (filter _ files)); [done|].
    rewrite E. by rewrite lookup_insert_eq.
  - destruct (last (filter _ files)); [done|].
    by rewrite lookup_insert_ne.
Qed.

(** C9, as the code has it. Each dictionary keeps one name per hash, and
    it is the name of the LAST item of the listing with that hash: a later
    item with the same hash replaces the name recorded before. For Google
    the items without [md5Checksum] are left out. *)
Theorem last_listed_wins (gfiles : list GoogleFile)
    (yfiles : list (string * string)) (h : string) :
  google_listing gfiles !! h =
    name <$> last (filter (λ item, md5Checksum item = Some h) gfiles)
  ∧ yandex_listing yfiles !! h =
    snd <$> last (filter (λ item, item.1 = h) yfiles).
Proof.
  unfold google_listing, yandex_listing.
  rewrite fold_google, fold_yandex, !lookup_empty.
  split; by destruct (last _).
Qed.

(** C9, as the claim has it, fails: with two listed files of one hash the
    first name is not the one kept. *)
Lemma first_listed_does_not_win :
  head (filter (λ item, md5Checksum item = Some "h") example.listed)
    = Some (mkGoogleFile (Some "h") "a.jpg")
  ∧ google_listing example.listed !! "h" ≠ Some "a.jpg"
  ∧ google_listing example.listed !! "h" = Some "b.jpg"
  ∧ yandex_listing [("h", "a.jpg"); ("h", "b.jpg")] !! "h" = Some "b.jpg".
Proof. vm_compute. repeat split; congruence. Qed.

End listing_facts.

(** ** Names *)

Section naming_facts.

Implicit Types (st : State) (p : Photo) (c : Cloud).
Implicit Types (d : gmap string string) (file_name : string).

Lemma append_nonempty_r (s : string) (a : ascii) (t : string) :
  s +:+ String a t ≠ "".
Proof. by destruct s. Qed.

Lemma first_name_nonempty p : first_name p ≠ "".
Proof. unfold first_name. apply append_nonempty_r. Qed.

Lemma replace_dot_nonempty (new s : string) :
  new ≠ "" → s ≠ "" → replace_dot new s ≠ "".
Proof.
  intros Hnew Hs. destruct s as [|a s]; [done|]. simpl.
  destruct (Ascii.eqb a "."); [|done].
  by destruct new.
Qed.

Lemma dated_name_nonempty p i : dated_name p i ≠ "".
Proof.
  unfold dated_name. destruct i.
  - apply append_nonempty_r.
  - apply replace_dot_nonempty; [done|apply append_nonempty_r].
Qed.






(** The loop only leaves with a name that clashes on no cloud. *)
Lemma resolve_clash_free fuel st p file_name i file_name' i' :
  resolve fuel st p file_name i = Some (file_name', i') →
  ∀ c, clash c st p file_name' = false.
Proof.
  revert file_name i. induction fuel as [|fuel IH]; intros file_name i; [done|].
  simpl.
  destruct (clash GoogleDrive st p file_name) eqn:Hg; [by apply IH|].
  destruct (clash YandexDisk st p file_name) eqn:Hy; [by apply IH|].
  intros [= <- <-] []; done.
Qed.

(** The name that leaves the loop is the one that entered it, or the
    dated name built from the dictionary of a live cloud. *)
Lemma resolve_shape fuel st p file_name i file_name' i' :
  resolve fuel st p file_name i = Some (file_name', i') →
  (file_name' = file_name ∧ i' = i) ∨
  ∃ c, live (drive c st) = true ∧
       file_name' = dated_name p (index c st p) ∧ i' = index c st p + 1.
Proof.
  revert file_name i. induction fuel as [|fuel IH]; intros file_name i; [done|].
  simpl.
  destruct (clash GoogleDrive st p file_name) eqn:Hg.
  { intros H. right. apply IH in H as [[-> ->]|H]; [|done].
    exists GoogleDrive. split; [|done].
    unfold clash in Hg. by destruct (live _). }
  destruct (clash YandexDisk st p file_name) eqn:Hy.
  { intros H. right. apply IH in H as [[-> ->]|H]; [|done].
    exists YandexDisk. split; [|done].
    unfold clash in Hy. by destruct (live _). }
  intros [= <- <-]. by left.
Qed.

Lemma resolve_nonempty fuel st p i file_name' i' :
  resolve fuel st p (first_name p) i = Some (file_name', i') →
  file_name' ≠ "".
Proof.
  intros H. apply resolve_shape in H as [[-> _]|(c & _ & -> & _)].
  - apply first_name_nonempty.
  - apply dated_name_nonempty.
Qed.


End naming_facts.

Section naming_bound.

Implicit Types (st : State) (p : Photo).


End naming_bound.

(** ** The variables of the loop under the five assignments *)

Section state_facts.

Implicit Types (st : State) (c : Cloud) (e : Event).

Lemma drive_note c e st : drive c (note e st) = drive c st.
Proof. by destruct c. Qed.

Lemma drive_record c c' h n st : drive c (record c' h n st) = drive c st.
Proof. by destruct c, c'. Qed.

Lemma drive_with_files_list c items st :
  drive c (with_files_list items st) = drive c st.
Proof. by destruct c. Qed.

Lemma drive_stop c c' st :
  drive c (stop c' st) = if decide (c' = c) then Stopped else drive c st.
Proof. by destruct c, c'. Qed.

Lemma dict_note c e st :
  folder_files_list c (note e st) = folder_files_list c st.
Proof. by destruct c. Qed.

Lemma dict_stop c c' st :
  folder_files_list c (stop c' st) = folder_files_list c st.
Proof. by destruct c, c'. Qed.

Lemma dict_with_files_list c items st :
  folder_files_list c (with_files_list items st) = folder_files_list c st.
Proof. by destruct c. Qed.

Lemma dict_record c c' h n st :
  folder_files_list c (record c' h n st) =
  if decide (c' = c) then <[h := n]> (folder_files_list c st)
  else folder_files_list c st.
Proof. by destruct c, c'. Qed.

Lemma journal_note e st : journal (note e st) = journal st ++ [e].
Proof. done. Qed.

Lemma journal_record c h n st : journal (record c h n st) = journal st.
Proof. by destruct c. Qed.

Lemma journal_stop c st : journal (stop c st) = journal st.
Proof. by destruct c. Qed.

Lemma journal_with_files_list items st :
  journal (with_files_list items st) = journal st.
Proof. done. Qed.

Lemma files_list_note e st : files_list (note e st) = files_list st.
Proof. done. Qed.

Lemma files_list_record c h n st : files_list (record c h n st) = files_list st.
Proof. by destruct c. Qed.

Lemma files_list_stop c st : files_list (stop c st) = files_list st.
Proof. by destruct c. Qed.

Lemma files_list_with_files_list items st :
  files_list (with_files_list items st) = items.
Proof. done. Qed.

Lemma drive_notes c es st : drive c (notes es st) = drive c st.
Proof.
  unfold notes. revert st. induction es as [|e es IH]; intros st; simpl;
    [done|]. by rewrite IH, drive_note.
Qed.

Lemma dict_notes c es st :
  folder_files_list c (notes es st) = folder_files_list c st.
Proof.
  unfold notes. revert st. induction es as [|e es IH]; intros st; simpl;
    [done|]. by rewrite IH, dict_note.
Qed.

Lemma files_list_notes es st : files_list (notes es st) = files_list st.
Proof.
  unfold notes. revert st. induction es as [|e es IH]; intros st; simpl;
    [done|]. by rewrite IH.
Qed.

Lemma journal_notes es st : journal (notes es st) = journal st ++ es.
Proof.
  unfold notes. revert st. induction es as [|e es IH]; intros st; simpl.
  - by rewrite app_nil_r.
  - rewrite IH, journal_note, <-app_assoc. done.
Qed.

End state_facts.

Create Rewrite HintDb state.

#[local] Hint Rewrite drive_note drive_record drive_with_files_list drive_stop
  dict_note dict_stop dict_with_files_list dict_record
  journal_note journal_record journal_stop journal_with_files_list
  files_list_note files_list_record files_list_stop
  files_list_with_files_list drive_notes dict_notes files_list_notes
  journal_notes : state.

(** ** One attempt, three attempts, one photo, all photos *)

Section loop_facts.

Variable adapter : Adapter.

Implicit Types (st : State) (p : Photo) (c : Cloud) (file_name : string).

(** A name that clashes nowhere keeps doing so through an attempt. *)
Lemma attempt_keeps_clash_free c c' p file_name retry st :
  file_name ≠ "" →
  clash c' st p file_name = false →
  clash c' (attempt adapter c p file_name retry st).1 p file_name = false.
Proof.
  intros Hne Hfree. attempt_cases adapter c p file_name st; simpl;
    unfold clash in *; autorewrite with state; try done.
  - destruct (decide (c = c')) as [<-|]; [|done].
    rewrite lookup_insert_eq. simpl.
    apply String.eqb_neq in Hne. rewrite Hne. simpl. by rewrite andb_false_r.
  - destruct (decide (c = c')) as [<-|]; [|done].
    rewrite lookup_insert_eq. simpl.
    apply String.eqb_neq in Hne. rewrite Hne. simpl. by rewrite andb_false_r.
  - destruct (decide (c = c')); done.
Qed.

(** What holds before a photo and survives every attempt made with a
    non-empty name free of clashes holds at the end of the run. *)
Lemma attempts_invariant (P : State → Prop) p file_name :
  (∀ c retry st,
     (∀ c', clash c' st p file_name = false) → P st →
     P (attempt adapter c p file_name retry st).1) →
  file_name ≠ "" →
  ∀ c retries st,
    (∀ c', clash c' st p file_name = false) → P st →
    (∀ c', clash c' (attempts adapter c p file_name retries st) p file_name
           = false)
    ∧ P (attempts adapter c p file_name retries st).
Proof.
  intros Hstep Hne c retries.
  induction retries as [|retry retries IH]; intros st Hfree HP; [done|].
  simpl.
  pose proof (Hstep c retry st Hfree HP) as HP'.
  assert (∀ c', clash c' (attempt adapter c p file_name retry st).1 p file_name
                = false) as Hfree'
    by (intros c'; by apply attempt_keeps_clash_free).
  destruct (attempt adapter c p file_name retry st) as [st' []]; simpl in *.
  - done.
  - by apply IH.
Qed.

Lemma run_invariant (P : State → Prop) :
  (∀ c p file_name retry st,
     file_name ≠ "" →
     (∀ c', clash c' st p file_name = false) → P st →
     P (attempt adapter c p file_name retry st).1) →
  ∀ fuel photos st st',
    P st → run adapter fuel st photos = Some st' → P st'.
Proof.
  intros Hstep fuel photos.
  induction photos as [|p photos IH]; intros st st' HP; simpl.
  - by intros [= <-].
  - unfold photo_step.
    destruct (resolve fuel st p (first_name p) 0) as [[file_name i]|] eqn:Hr;
      [|done].
    pose proof (resolve_clash_free _ _ _ _ _ _ _ Hr) as Hfree.
    pose proof (resolve_nonempty _ _ _ _ _ _ Hr) as Hne.
    apply IH. unfold upload.
    destruct (attempts_invariant P p file_name
                (λ c retry st, Hstep c p file_name retry st Hne) Hne
                GoogleDrive (seq 0 3) st Hfree HP) as [Hfree1 HP1].
    by apply (attempts_invariant P p file_name
                (λ c retry st, Hstep c p file_name retry st Hne) Hne).
Qed.

End loop_facts.

(** ** What the journal of a run looks like *)

Section journal_facts.

Variable adapter : Adapter.

Implicit Types (st : State) (p : Photo) (c : Cloud) (file_name : string).
Implicit Types (j : list Event) (e : Event).








End journal_facts.

(** ** Content that a cloud already holds *)

Section skip_facts.

Variable adapter : Adapter.

Implicit Types (st : State) (p : Photo) (c : Cloud) (file_name : string).




End skip_facts.

(** ** What one loop writes, and what it leaves alone *)

Section upload_facts.

Variable adapter : Adapter.

Implicit Types (st : State) (p : Photo) (c : Cloud) (file_name : string).












End upload_facts.

(** ** The claims about the upload loops *)

Section claims.

Implicit Types (st : State) (p : Photo) (c : Cloud) (file_name : string).





Lemma attempt_broken (adapter : Adapter) c p file_name retry st error :
  live (drive c st) = true →
  truthy (folder_files_list c st !! md5 p) = false →
  adapter (journal st) c file_name (md5 p) = Broken error →
  attempt adapter c p file_name retry st =
  (notes [Upload c file_name (md5 p) (Broken error);
          UploadFailed c file_name error (2 - retry)] st, false).
Proof. intros Hlive Htruthy Hreply. unfold attempt. by rewrite Hlive, Htruthy, Hreply. Qed.

(** C3. When the cloud is live, does not hold the content, and its client
    raises an ordinary exception at every call for this name and content,
    the upload loop calls the client three times, writes the failure line
    after each call (with 2, 1 and 0 attempts left), and changes nothing
    else: no dictionary entry, no item in [files_list], both switches as
    they were. The photo is then finished as usual and the run goes on
    with the next photo. *)
Theorem broken_cloud_is_tried_three_times (adapter : Adapter)
    c p file_name st :
  live (drive c st) = true →
  truthy (folder_files_list c st !! md5 p) = false →
  (∀ j, ∃ error, adapter j c file_name (md5 p) = Broken error) →
  (∃ e0 e1 e2 es,
     es = [Upload c file_name (md5 p) (Broken e0);
           UploadFailed c file_name e0 2;
           Upload c file_name (md5 p) (Broken e1);
           UploadFailed c file_name e1 1;
           Upload c file_name (md5 p) (Broken e2);
           UploadFailed c file_name e2 0] ∧
     upload adapter c p file_name st = notes es st ∧
     journal (upload adapter c p file_name st) = journal st ++ es ∧
     length (List.filter (is_call c) es) = 3)
  ∧ (∀ c', drive c' (upload adapter c p file_name st) = drive c' st ∧
           folder_files_list c' (upload adapter c p file_name st)
             = folder_files_list c' st)
  ∧ files_list (upload adapter c p file_name st) = files_list st
  ∧ (∀ fuel rest st0 i,
       resolve fuel st0 p (first_name p) 0 = Some (file_name, i) →
       run adapter fuel st0 (p :: rest) =
       run adapter fuel
         (upload adapter YandexDisk p file_name
            (upload adapter GoogleDrive p file_name st0)) rest).
Proof.
  intros Hlive Htruthy Hbroken.
  assert (∃ e0 e1 e2,
            upload adapter c p file_name st =
            notes [Upload c file_name (md5 p) (Broken e0);
                   UploadFailed c file_name e0 2;
                   Upload c file_name (md5 p) (Broken e1);
                   UploadFailed c file_name e1 1;
                   Upload c file_name (md5 p) (Broken e2);
                   UploadFailed c file_name e2 0] st)
    as (e0 & e1 & e2 & Hup).
  { unfold upload. simpl seq. cbn [attempts].
    destruct (Hbroken (journal st)) as [e0 H0].
    rewrite (attempt_broken adapter c p file_name 0 st e0) by done.
    cbv beta iota.
    destruct (Hbroken (journal (notes [Upload c file_name (md5 p) (Broken e0);
                                       UploadFailed c file_name e0 (2 - 0)]
                                  st))) as [e1 H1].
    rewrite (attempt_broken adapter c p file_name 1 _ e1)
      by (try done; autorewrite with state; done).
    cbv beta iota.
    destruct (Hbroken
                (journal
                   (notes [Upload c file_name (md5 p) (Broken e1);
                           UploadFailed c file_name e1 (2 - 1)]
                      (notes [Upload c file_name (md5 p) (Broken e0);
                              UploadFailed c file_name e0 (2 - 0)] st))))
      as [e2 H2].
    rewrite (attempt_broken adapter c p file_name 2 _ e2)
      by (try done; autorewrite with state; done).
    by exists e0, e1, e2. }
  split; [|split; [|split]].
  - exists e0, e1, e2. eexists. split; [reflexivity|]. split; [done|].
    rewrite Hup, journal_notes. split; [done|].
    simpl. by rewrite !bool_decide_eq_true_2.
  - intros c'. rewrite Hup. by autorewrite with state.
  - rewrite Hup. by autorewrite with state.
  - intros fuel rest st0 i Hr. simpl. unfold photo_step. by rewrite Hr.
Qed.

Lemma broken_cloud_is_tried_three_times_witness :
  length
    (List.filter (is_call YandexDisk)
       (journal (upload example.always_broken YandexDisk
                   (example.photo 10 1 "h1") "10.jpg" example.fresh)))
  = 3.
Proof.
  destruct (broken_cloud_is_tried_three_times example.always_broken
              YandexDisk (example.photo 10 1 "h1") "10.jpg" example.fresh)
    as [(e0 & e1 & e2 & es & Hes & _ & Hj & Hn) _].
  - reflexivity.
  - vm_compute. reflexivity.
  - intros j. exists "timeout". reflexivity.
  - rewrite Hj. exact Hn.
Defined.








End claims.

(** ** The shape of the names *)

Section shape_facts.

Implicit Types (st : State) (p : Photo) (c : Cloud) (s t : string).


Lemma append_assoc s t u : (s +:+ t) +:+ u = s +:+ t +:+ u.
Proof.
  induction s as [|a s IH]; [done|].
  change (String a ((s +:+ t) +:+ u) = String a (s +:+ t +:+ u)).
  by rewrite IH.
Qed.

Lemma append_empty_r s : s +:+ "" = s.
Proof.
  induction s as [|a s IH]; [done|].
  change (String a (s +:+ "") = String a s). by rewrite IH.
Qed.



Lemma dotless_pretty_N_go (x : N) s :
  dotless s = true → dotless (pretty_N_go x s) = true.
Proof.
  revert s. induction (N.lt_wf_0 x) as [x _ IH]; intros s Hs.
  assert (x = 0 ∨ 0 < x)%N as [->|Hx] by lia.
  - by rewrite pretty_N_go_0.
  - rewrite pretty_N_go_step by done. apply IH.
    { by apply N.div_lt. }
    simpl. rewrite Hs. unfold pretty_N_char. by repeat case_match.
Qed.

Lemma dotless_pretty_N (x : N) : dotless (pretty x) = true.
Proof.
  unfold pretty, pretty_N. case_decide; [done|].
  by apply dotless_pretty_N_go.
Qed.

Lemma dotless_pretty_nat (x : nat) : dotless (pretty x) = true.
Proof. apply dotless_pretty_N. Qed.











Example file_extension_jpg : vk.file_extension example.url = "jpg".
Proof. vm_compute. reflexivity. Qed.

End shape_facts.

(** ** A run on one cloud *)

Section one_cloud_facts.

Variable adapter : Adapter.

Implicit Types (st : State) (p : Photo) (c : Cloud) (file_name : string).

Lemma sent_app c (j1 j2 : list Event) : sent c (j1 ++ j2) = sent c j1 ++ sent c j2.
Proof. unfold sent. apply omap_app. Qed.

Lemma upload_off c p file_name st :
  live (drive c st) = false → upload adapter c p file_name st = st.
Proof.
  intros Hoff. unfold upload. simpl. unfold attempt. by rewrite !Hoff.
Qed.






End one_cloud_facts.

Section one_cloud_run.

Variable adapter : Adapter.

Implicit Types (st : State) (p : Photo) (c : Cloud) (file_name : string).




End one_cloud_run.

Section naming_claim.

Implicit Types (st : State) (p : Photo) (c : Cloud) (file_name : string).





End naming_claim.

(** * Further facts *)

(** ** The manifest: what [add] keeps *)

Section FileList_more.
Import db.FileList.

Implicit Types (items : list db.Entry) (item : db.Entry).
Implicit Types (name size checksum disk key : string).

(** Replacing an item by one with the same file name and checksum does
    not move what a lookup finds. *)
Lemma get_insert items i item item' key :
  items !! i = Some item →
  db.file_name item' = db.file_name item →
  db.checksum item' = db.checksum item →
  get (<[i := item']> items) key =
  (λ found, (found.1, if decide (found.1 = i) then item' else found.2))
    <$> get items key.
Proof.
  intros Hi Hn Hc.
  assert (∀ k y, <[i := item']> items !! k = Some y →
                 ∃ x, items !! k = Some x ∧ (hit key y ↔ hit key x) ∧
                      y = if decide (k = i) then item' else x) as Hold.
  { intros k y Hk. destruct (decide (k = i)) as [->|Hne].
    - rewrite list_lookup_insert_eq in Hk by (by eapply lookup_lt_Some).
      injection Hk as <-. exists item. unfold hit. by rewrite Hn, Hc.
    - rewrite list_lookup_insert_ne in Hk by done. by exists y. }
  destruct (get items key) as [[j x]|] eqn:E; simpl.
  - apply get_Some in E as (Hj & Hx & Hmin). apply get_Some.
    assert (is_Some (<[i := item']> items !! j)) as [y Hy].
    { apply lookup_lt_is_Some. rewrite length_insert.
      by eapply lookup_lt_Some. }
    destruct (Hold _ _ Hy) as (x' & Hx' & Hiff & ->).
    rewrite Hj in Hx'. injection Hx' as <-.
    split; [done|]. split; [by apply Hiff|].
    intros k y Hk Hlt Hy'. destruct (Hold _ _ Hk) as (z & Hz & Hiff' & _).
    apply (Hmin k z Hz Hlt). by apply Hiff'.
  - apply get_None. intros y Hy Hhit.
    apply list_elem_of_lookup in Hy as [k Hk].
    destruct (Hold _ _ Hk) as (z & Hz & Hiff & _).
    rewrite get_None in E. apply (E z); [by eapply list_elem_of_lookup_2|].
    by apply Hiff.
Qed.

Lemma get_or_insert items i item item' name checksum :
  get_or items name checksum = Some (i, item) →
  db.file_name item' = db.file_name item →
  db.checksum item' = db.checksum item →
  get_or (<[i := item']> items) name checksum = Some (i, item').
Proof.
  intros Hget Hn Hc.
  destruct (get_or_Some _ _ _ _ _ Hget) as [Hi _].
  unfold get_or in *.
  rewrite (get_insert items i item item' name Hi Hn Hc).
  rewrite (get_insert items i item item' checksum Hi Hn Hc).
  destruct (get items name) as [[j x]|]; simpl.
  - injection Hget as -> ->. by rewrite decide_True.
  - rewrite Hget. simpl. by rewrite decide_True.
Qed.

Lemma get_or_new items name size checksum disk :
  get_or items name checksum = None →
  get_or (items ++ [db.mkEntry name size checksum [disk]]) name checksum =
  Some (length items, db.mkEntry name size checksum [disk]).
Proof.
  intros Hnone. unfold get_or in *.
  destruct (get items name) as [?|] eqn:E; [done|].
  unfold get in *. rewrite list_find_app_r by done. simpl.
  rewrite decide_True by (by left). simpl. repeat f_equal; lia.
Qed.

Lemma add_found items name size checksum disk :
  (∃ i item,
     get_or (add items name size checksum disk).1 name checksum
       = Some (i, item) ∧
     disk ∈ db.disks item)
  ∧ ∀ size', ∃ e,
      add (add items name size checksum disk).1 name size' checksum disk
      = ((add items name size checksum disk).1, db.Raised e).
Proof.
  assert (∃ i item,
            get_or (add items name size checksum disk).1 name checksum
              = Some (i, item) ∧ disk ∈ db.disks item) as Hfound.
  { unfold add.
    destruct (get_or items name checksum) as [[i item]|] eqn:Hget.
    - destruct (decide (disk ∈ db.disks item)) as [Hin|Hout]; simpl.
      + by exists i, item.
      + exists i, (append_disk disk item). split.
        * by apply (get_or_insert items i item).
        * simpl. apply elem_of_app. right. by apply list_elem_of_singleton.
    - simpl. eexists _, _. split; [by apply get_or_new|].
      simpl. by apply list_elem_of_singleton. }
  split; [done|].
  intros size'. destruct Hfound as (i & item & Hget & Hin).
  unfold add at 1. rewrite Hget. rewrite decide_True by done. eauto.
Qed.

Lemma add_kept items name size checksum disk j item :
  items !! j = Some item →
  ∃ item',
    (add items name size checksum disk).1 !! j = Some item' ∧
    db.file_name item' = db.file_name item ∧
    db.size item' = db.size item ∧
    db.checksum item' = db.checksum item ∧
    db.disks item `prefix_of` db.disks item'.
Proof.
  intros Hj. unfold add.
  destruct (get_or items name checksum) as [[i found]|] eqn:Hget.
  - destruct (decide (disk ∈ db.disks found)) as [Hin|Hout]; simpl.
    + by exists item.
    + destruct (get_or_Some _ _ _ _ _ Hget) as [Hi _].
      destruct (decide (j = i)) as [->|Hne].
      * rewrite Hi in Hj. injection Hj as ->.
        exists (append_disk disk item).
        rewrite list_lookup_insert_eq by (by eapply lookup_lt_Some).
        repeat split; try done. simpl. by apply prefix_app_r.
      * exists item. by rewrite list_lookup_insert_ne.
  - simpl. exists item. split; [|done].
    by apply lookup_app_l_Some.
Qed.

Lemma add_tidy items name size checksum disk :
  tidy items → tidy (add items name size checksum disk).1.
Proof.
  intros (Hnames & Hsums & Hdisks). unfold add.
  destruct (get_or items name checksum) as [[i found]|] eqn:Hget.
  - destruct (decide (disk ∈ db.disks found)) as [Hin|Hout]; simpl; [done|].
    destruct (get_or_Some _ _ _ _ _ Hget) as [Hi _].
    unfold tidy. rewrite !list_fmap_insert. simpl.
    rewrite !list_insert_id by (by rewrite list_lookup_fmap, Hi).
    split; [done|]. split; [done|].
    apply Forall_insert; [done|]. simpl.
    rewrite Forall_forall in Hdisks.
    destruct (Hdisks found) as [Hnd _]; [by eapply list_elem_of_lookup_2|].
    split.
    + apply NoDup_app. split; [done|]. split; [|apply NoDup_singleton].
      intros x Hx Hx'. apply list_elem_of_singleton in Hx'. by subst.
    + by destruct (db.disks found).
  - simpl. pose proof (proj1 (get_or_None _ _ _) Hget) as Hnone.
    clear Hget. rename Hnone into Hget.
    unfold tidy. rewrite !fmap_app. simpl.
    split; [|split].
    + apply NoDup_app. split; [done|]. split; [|apply NoDup_singleton].
      intros x Hx Hx'. apply list_elem_of_singleton in Hx'. subst x.
      apply list_elem_of_fmap in Hx as (item & Hname & Hitem).
      apply (Hget item Hitem). left. by left.
    + apply NoDup_app. split; [done|]. split; [|apply NoDup_singleton].
      intros x Hx Hx'. apply list_elem_of_singleton in Hx'. subst x.
      apply list_elem_of_fmap in Hx as (item & Hsum & Hitem).
      apply (Hget item Hitem). right. by right.
    + apply Forall_app. split; [done|]. apply Forall_singleton. simpl.
      split; [apply NoDup_singleton|done].
Qed.

Lemma tidy_nil : tidy [].
Proof.
  split; [apply NoDup_nil_2|]. split; [apply NoDup_nil_2|]. apply Forall_nil_2.
Qed.

(** X1. Whatever [add] did (new item, disk appended, or raise), a lookup
    for the same name and checksum afterwards finds an item that lists
    the disk; so the same call made again, with any size, raises and
    leaves the list as it is. *)
Theorem add_then_found items name size checksum disk :
  (∃ i item,
     get_or (add items name size checksum disk).1 name checksum
       = Some (i, item) ∧
     disk ∈ db.disks item)
  ∧ ∀ size', ∃ e,
      add (add items name size checksum disk).1 name size' checksum disk
      = ((add items name size checksum disk).1, db.Raised e).
Proof. apply add_found. Qed.

(** X2. [add] never removes, moves or rewrites an item: every item stays
    at its position with its file name, size and checksum (the size passed
    to a later [add] is dropped), and its disks only grow at the end. *)
Theorem add_keeps_items items name size checksum disk j item :
  items !! j = Some item →
  ∃ item',
    (add items name size checksum disk).1 !! j = Some item' ∧
    db.file_name item' = db.file_name item ∧
    db.size item' = db.size item ∧
    db.checksum item' = db.checksum item ∧
    db.disks item `prefix_of` db.disks item'.
Proof. apply add_kept. Qed.

Lemma add_keeps_items_witness :
  ∃ item',
    (add [example.e1] "other.jpg" "z" "abc" "B").1 !! 0 = Some item' ∧
    db.file_name item' = "5.jpg" ∧ db.size item' = "w" ∧
    db.checksum item' = "abc" ∧ ["A"] `prefix_of` db.disks item'.
Proof.
  apply (add_keeps_items [example.e1] "other.jpg" "z" "abc" "B" 0 example.e1).
  reflexivity.
Defined.

(** X3. [add] keeps a list tidy: no two items with one file name, no two
    with one checksum, every item with at least one disk and no disk
    twice. The empty list is tidy, so every list built by [add] alone
    is. *)
Theorem add_keeps_tidy items name size checksum disk :
  tidy items → tidy (add items name size checksum disk).1.
Proof. apply add_tidy. Qed.

Lemma add_keeps_tidy_witness :
  tidy [] ∧ tidy (add [] "5.jpg" "w" "abc" "A").1.
Proof.
  split; [exact tidy_nil|].
  apply (add_keeps_tidy [] "5.jpg" "w" "abc" "A"). exact tidy_nil.
Defined.

End FileList_more.

(** ** The whole run: calls, switches and the manifest *)

Section state_more.

Implicit Types (st : State) (c : Cloud) (e : Event).

Lemma disk_note c e st : disk c (note e st) = disk c st.
Proof. by destruct c. Qed.

Lemma disk_record c c' h n st : disk c (record c' h n st) = disk c st.
Proof. by destruct c, c'. Qed.

Lemma disk_stop c c' st : disk c (stop c' st) = disk c st.
Proof. by destruct c, c'. Qed.

Lemma disk_with_files_list c items st :
  disk c (with_files_list items st) = disk c st.
Proof. by destruct c. Qed.

End state_more.

#[local] Hint Rewrite disk_note disk_record disk_stop disk_with_files_list
  : state.

Section run_more.
Import db.FileList.

Variable adapter : Adapter.

Implicit Types (st : State) (p : Photo) (c : Cloud) (file_name : string).


(** What one round adds to the calls of a cloud: nothing, or the name. *)
Lemma attempt_sent c c' p file_name retry st :
  ∃ l, sent c' (journal (attempt adapter c p file_name retry st).1)
       = sent c' (journal st) ++ l
       ∧ length l ≤ 1.
Proof.
  attempt_cases adapter c p file_name st; simpl; autorewrite with state;
    rewrite ?sent_app; simpl;
    try (exists []; by rewrite ?app_nil_r; simpl; lia);
    destruct (decide (c = c')); simpl; rewrite ?app_nil_r;
    first [ by (exists [file_name]; simpl; split; [done|lia])
          | by (exists []; rewrite ?app_nil_r; simpl; split; [done|lia]) ].
Qed.

Lemma attempts_sent c c' p file_name retries st :
  ∃ l, sent c' (journal (attempts adapter c p file_name retries st))
       = sent c' (journal st) ++ l
       ∧ length l ≤ length retries.
Proof.
  revert st. induction retries as [|retry retries IH]; intros st; simpl.
  - exists []. by rewrite app_nil_r.
  - destruct (attempt_sent c c' p file_name retry st) as (l & Hl & Hlen).
    destruct (attempt adapter c p file_name retry st) as [st1 []];
      simpl in *.
    + exists l. split; [done|lia].
    + destruct (IH st1) as (l' & Hl' & Hlen').
      exists (l ++ l'). rewrite Hl', Hl, <-app_assoc, length_app.
      split; [done|lia].
Qed.

Lemma attempts_off c c' p file_name retries st :
  c ≠ c' →
  sent c' (journal (attempts adapter c p file_name retries st))
  = sent c' (journal st).
Proof.
  intros Hne. revert st. induction retries as [|retry retries IH];
    intros st; simpl; [done|].
  assert (sent c' (journal (attempt adapter c p file_name retry st).1)
          = sent c' (journal st)) as Hsame.
  { attempt_cases adapter c p file_name st; simpl; autorewrite with state;
      rewrite ?sent_app; simpl; rewrite ?decide_False by done;
      by rewrite ?app_nil_r. }
  destruct (attempt adapter c p file_name retry st) as [st1 []];
    simpl in *; [done|]. by rewrite IH.
Qed.

Lemma run_sent fuel photos st st' c :
  run adapter fuel st photos = Some st' →
  ∃ l, sent c (journal st') = sent c (journal st) ++ l
       ∧ length l ≤ 3 * length photos.
Proof.
  revert st. induction photos as [|p photos IH]; intros st; simpl.
  - intros [= <-]. exists []. by rewrite app_nil_r.
  - unfold photo_step.
    destruct (resolve fuel st p (first_name p) 0) as [[file_name i]|];
      [|done].
    intros Hrun. destruct (IH _ Hrun) as (l & Hl & Hlen).
    unfold upload in Hl.
    destruct c.
    + rewrite (attempts_off YandexDisk GoogleDrive) in Hl by done.
      destruct (attempts_sent GoogleDrive GoogleDrive p file_name (seq 0 3) st)
        as (l1 & Hl1 & Hlen1).
      exists (l1 ++ l). rewrite Hl, Hl1, <-app_assoc, length_app.
      split; [done|]. simpl in Hlen1. lia.
    + destruct (attempts_sent YandexDisk YandexDisk p file_name (seq 0 3)
                  (attempts adapter GoogleDrive p file_name (seq 0 3) st))
        as (l1 & Hl1 & Hlen1).
      rewrite (attempts_off GoogleDrive YandexDisk) in Hl1 by done.
      exists (l1 ++ l). rewrite Hl, Hl1, <-app_assoc, length_app.
      split; [done|]. simpl in Hlen1. lia.
Qed.




Lemma attempt_off c c' p file_name retry st :
  live (drive c' st) = false →
  drive c' (attempt adapter c p file_name retry st).1 = drive c' st ∧
  folder_files_list c' (attempt adapter c p file_name retry st).1
    = folder_files_list c' st ∧
  sent c' (journal (attempt adapter c p file_name retry st).1)
    = sent c' (journal st).
Proof.
  intros Hoff.
  destruct (decide (c = c')) as [->|Hne].
  { unfold attempt. by rewrite Hoff. }
  attempt_cases adapter c p file_name st; simpl; autorewrite with state;
    rewrite ?sent_app; simpl; rewrite ?decide_False by done;
    by rewrite ?app_nil_r.
Qed.

Lemma attempt_held c c' p file_name retry st h n :
  n ≠ "" →
  folder_files_list c' st !! h = Some n →
  folder_files_list c' (attempt adapter c p file_name retry st).1 !! h
    = Some n.
Proof.
  intros Hn Hh.
  attempt_cases adapter c p file_name st; simpl; autorewrite with state;
    try done.
  - destruct (decide (c = c')) as [<-|]; [|done].
    destruct (decide (md5 p = h)) as [<-|]; [|by rewrite lookup_insert_ne].
    rewrite Hh in Htruthy. simpl in Htruthy.
    apply String.eqb_neq in Hn. by rewrite Hn in Htruthy.
  - destruct (decide (c = c')) as [<-|]; [|done].
    destruct (decide (md5 p = h)) as [<-|]; [|by rewrite lookup_insert_ne].
    rewrite Hh in Htruthy. simpl in Htruthy.
    apply String.eqb_neq in Hn. by rewrite Hn in Htruthy.
Qed.

Lemma attempt_files_list c p file_name retry st :
  files_list (attempt adapter c p file_name retry st).1 = files_list st ∨
  files_list (attempt adapter c p file_name retry st).1
  = (add (files_list st) file_name (size p) (md5 p) (disk c st)).1.
Proof.
  attempt_cases adapter c p file_name st; simpl; autorewrite with state in *;
    try (by left); right; by rewrite Hadd.
Qed.

Lemma kept_refl items : kept items items.
Proof. intros j item Hj. by exists item. Qed.

Lemma kept_trans items1 items2 items3 :
  kept items1 items2 → kept items2 items3 → kept items1 items3.
Proof.
  intros H12 H23 j item Hj.
  destruct (H12 _ _ Hj) as (item2 & Hj2 & Hn2 & Hs2 & Hc2 & Hp2).
  destruct (H23 _ _ Hj2) as (item3 & Hj3 & Hn3 & Hs3 & Hc3 & Hp3).
  exists item3. split; [done|].
  rewrite Hn3, Hs3, Hc3. repeat split; try done. by etrans.
Qed.

(** X4. Whatever the clients answer, a run calls each cloud at most three
    times for every photo: the calls of a cloud at the end are those at
    the start followed by at most [3 * len(photos)] more. *)
Theorem at_most_three_calls_per_photo fuel photos st st' c :
  run adapter fuel st photos = Some st' →
  ∃ l, sent c (journal st') = sent c (journal st) ++ l
       ∧ length l ≤ 3 * length photos.
Proof. apply run_sent. Qed.


(** X6. A run keeps the manifest tidy: no two items with one file name or
    one checksum, no item without a disk or with a disk twice. *)
Theorem manifest_stays_tidy fuel photos st st' :
  tidy (files_list st) →
  run adapter fuel st photos = Some st' →
  tidy (files_list st').
Proof.
  intros Htidy Hrun.
  apply (run_invariant adapter (λ st1, tidy (files_list st1)))
    with fuel photos st; [|done|done].
  intros c p file_name retry st1 _ _ H1.
  destruct (attempt_files_list c p file_name retry st1) as [-> | ->];
    [done|]. by apply add_tidy.
Qed.

(** X7. A run never drops, moves or rewrites an item of the manifest: every
    item of the start is at the same position at the end, with its file
    name, size and checksum, and with its disks as the first of its
    disks. *)
Theorem manifest_items_are_kept fuel photos st st' j item :
  run adapter fuel st photos = Some st' →
  files_list st !! j = Some item →
  ∃ item', files_list st' !! j = Some item' ∧
    db.file_name item' = db.file_name item ∧
    db.size item' = db.size item ∧
    db.checksum item' = db.checksum item ∧
    db.disks item `prefix_of` db.disks item'.
Proof.
  intros Hrun.
  revert j item. change (kept (files_list st) (files_list st')).
  apply (run_invariant adapter (λ st1, kept (files_list st) (files_list st1)))
    with fuel photos st; [|apply kept_refl|done].
  intros c p file_name retry st1 _ _ H1.
  destruct (attempt_files_list c p file_name retry st1) as [-> | ->];
    [done|].
  eapply kept_trans; [done|]. intros j item. apply add_kept.
Qed.

(** X8. A cloud that is off at the start of a run (not chosen, or stopped)
    is left alone: its switch and its dictionary are the same at the end,
    and no call was made to it. So no cloud ever comes back on. *)
Theorem off_cloud_is_left_alone fuel photos st st' c :
  live (drive c st) = false →
  run adapter fuel st photos = Some st' →
  drive c st' = drive c st ∧
  folder_files_list c st' = folder_files_list c st ∧
  sent c (journal st') = sent c (journal st).
Proof.
  intros Hoff Hrun.
  apply (run_invariant adapter
           (λ st1, drive c st1 = drive c st ∧
                   folder_files_list c st1 = folder_files_list c st ∧
                   sent c (journal st1) = sent c (journal st)))
    with fuel photos st; [|done|done].
  intros c0 p file_name retry st1 _ _ (Hd & Hf & Hs).
  destruct (attempt_off c0 c p file_name retry st1) as (Hd' & Hf' & Hs').
  { by rewrite Hd. }
  by rewrite Hd', Hf', Hs'.
Qed.

(** X9. With no cloud on, the run ends for every list of photos (one round
    of the naming loop is enough for each) and changes nothing at all, the
    journal included. *)
Theorem no_cloud_no_work fuel photos st :
  live (gdrive st) = false →
  live (yadisk st) = false →
  run adapter (S fuel) st photos = Some st.
Proof.
  intros Hg Hy. induction photos as [|p photos IH]; [done|].
  cbn [run]. unfold photo_step. cbn [resolve]. unfold clash. simpl.
  rewrite Hg, Hy. simpl.
  rewrite (upload_off adapter GoogleDrive) by done.
  rewrite (upload_off adapter YandexDisk) by done.
  exact IH.
Qed.

(** X10. A name recorded for a hash in the dictionary of a cloud is never
    replaced during a run, unless it is the empty string. *)
Theorem held_name_is_never_replaced fuel photos st st' c h n :
  n ≠ "" →
  folder_files_list c st !! h = Some n →
  run adapter fuel st photos = Some st' →
  folder_files_list c st' !! h = Some n.
Proof.
  intros Hn Hh Hrun.
  apply (run_invariant adapter (λ st1, folder_files_list c st1 !! h = Some n))
    with fuel photos st; [|done|done].
  intros c0 p file_name retry st1 _ _ H1. by apply attempt_held.
Qed.


End run_more.

Lemma at_most_three_calls_per_photo_witness :
  ∃ st',
    run example.always_broken 3 example.fresh [example.photo 10 1 "h1"]
      = Some st'
    ∧ ∃ l, sent GoogleDrive (journal st')
           = sent GoogleDrive (journal example.fresh) ++ l
           ∧ length l ≤ 3 * 1.
Proof.
  eexists. split; [vm_compute; reflexivity|].
  apply (at_most_three_calls_per_photo example.always_broken 3
           [example.photo 10 1 "h1"] example.fresh).
  vm_compute. reflexivity.
Defined.


Lemma manifest_stays_tidy_witness :
  ∃ st',
    run example.always_done 3 example.archived
      [example.photo 5 1 "abc"; example.photo 5 2 "h2"] = Some st'
    ∧ db.FileList.tidy (files_list st').
Proof.
  eexists. split; [vm_compute; reflexivity|].
  apply (manifest_stays_tidy example.always_done 3
           [example.photo 5 1 "abc"; example.photo 5 2 "h2"]
           example.archived).
  - split; [|split].
    + apply NoDup_singleton.
    + apply NoDup_singleton.
    + apply Forall_singleton. split; [apply NoDup_singleton|done].
  - vm_compute. reflexivity.
Defined.

Lemma manifest_items_are_kept_witness :
  ∃ st',
    run example.always_done 3 example.archived [example.photo 5 1 "abc"]
      = Some st'
    ∧ ∃ item', files_list st' !! 0 = Some item' ∧
        db.file_name item' = "5.jpg" ∧ db.size item' = "w" ∧
        db.checksum item' = "abc" ∧ ["A"] `prefix_of` db.disks item'.
Proof.
  eexists. split; [vm_compute; reflexivity|].
  apply (manifest_items_are_kept example.always_done 3
           [example.photo 5 1 "abc"] example.archived _ 0 example.e1).
  - vm_compute. reflexivity.
  - reflexivity.
Defined.

Lemma off_cloud_is_left_alone_witness :
  ∃ st',
    run example.always_done 3 (example.only GoogleDrive "/g/" "/y/")
      [example.photo 10 1 "h1"] = Some st'
    ∧ drive YandexDisk st' = NotChosen
    ∧ folder_files_list YandexDisk st' = ∅
    ∧ sent YandexDisk (journal st') = [].
Proof.
  eexists. split; [vm_compute; reflexivity|].
  apply (off_cloud_is_left_alone example.always_done 3
           [example.photo 10 1 "h1"] (example.only GoogleDrive "/g/" "/y/")).
  - reflexivity.
  - vm_compute. reflexivity.
Defined.

Lemma no_cloud_no_work_witness :
  run example.always_done 1 example.idle
    [example.photo 3 1 "h3"; example.photo 10 1 "h1"] = Some example.idle.
Proof.
  apply (no_cloud_no_work example.always_done 0
           [example.photo 3 1 "h3"; example.photo 10 1 "h1"] example.idle);
    reflexivity.
Defined.

Lemma held_name_is_never_replaced_witness :
  ∃ st',
    run example.always_done 3 example.seeded
      [example.photo 3 1 "h3"; example.photo 3 2 "h4"] = Some st'
    ∧ folder_files_list GoogleDrive st' !! "h3" = Some "3.jpg".
Proof.
  eexists. split; [vm_compute; reflexivity|].
  apply (held_name_is_never_replaced example.always_done 3
           [example.photo 3 1 "h3"; example.photo 3 2 "h4"] example.seeded).
  - done.
  - reflexivity.
  - vm_compute. reflexivity.
Defined.


(** ** The configuration file *)

Section Config_facts.
Import db.Config.

Context {V : Type} `{EqDecision V}.

Implicit Types (cfg : t V) (files : Files V) (param : string).
Implicit Types (value : option V) (data : gmap string (option V)).

Lemma blank_lookup param :
  (blank (V := V)) !! param = if decide (param ∈ names) then Some None else None.
Proof.
  unfold blank, names. destruct (decide _) as [Hin|Hout].
  - repeat (apply elem_of_cons in Hin as [-> | Hin]; [by vm_compute|]).
    by apply elem_of_nil in Hin.
  - repeat (rewrite lookup_insert_ne;
            [|intros <-; apply Hout; set_solver]).
    apply lookup_empty.
Qed.

Lemma load_fold data (l : list string) (params : gmap string (option V)) param :
  foldl (λ params param,
           match data !! param with
           | Some value => <[param := value]> params
           | None => params
           end) params l !! param =
  if decide (param ∈ l) then
    match data !! param with
    | Some value => Some value
    | None => params !! param
    end
  else params !! param.
Proof.
  revert params. induction l as [|k l IH]; intros params; simpl.
  - done.
  - rewrite IH. destruct (decide (param ∈ l)) as [Hin|Hout].
    + rewrite decide_True by (by right).
      destruct (data !! param) eqn:E; [done|].
      destruct (data !! k) eqn:E'; [|done].
      rewrite lookup_insert_ne; [done|]. intros <-. by rewrite E in E'.
    + destruct (decide (param = k)) as [->|Hne].
      * rewrite decide_True by (by left).
        destruct (data !! k); [by rewrite lookup_insert_eq|done].
      * rewrite decide_False by (intros [?|?]%elem_of_cons; done).
        destruct (data !! k); [by rewrite lookup_insert_ne|done].
Qed.

Lemma load_lookup data param :
  load data !! param =
  if decide (param ∈ names) then Some (default None (data !! param))
  else None.
Proof.
  unfold load. rewrite load_fold, blank_lookup.
  destruct (decide (param ∈ names)); [|done].
  by destruct (data !! param).
Qed.

(** The keys of [_params] are the five names, whatever was loaded and
    set. *)
Lemma built_keys cfg param :
  built cfg → (is_Some (_params cfg !! param) ↔ param ∈ names).
Proof.
  intros Hb. induction Hb as [files path cfg Hinit|cfg files k value Hb IH].
  - unfold init in Hinit.
    destruct (files !! path) as [[|data]|]; [done| |];
      injection Hinit as <-; simpl.
    + rewrite load_lookup. destruct (decide (param ∈ names)); [by eauto|].
      split; [by intros [? ?]|done].
    + rewrite blank_lookup. destruct (decide (param ∈ names)); [by eauto|].
      split; [by intros [? ?]|done].
  - unfold set. destruct (_params cfg !! k) as [old_value|] eqn:E; [|done].
    assert (is_Some (<[k := value]> (_params cfg) !! param) ↔ param ∈ names).
    { destruct (decide (k = param)) as [->|Hne].
      - rewrite lookup_insert_eq. rewrite <-IH, E. split; eauto.
      - by rewrite lookup_insert_ne. }
    by destruct (decide (old_value ≠ value)).
Qed.

Lemma load_id data :
  (∀ param, is_Some (data !! param) ↔ param ∈ names) → load data = data.
Proof.
  intros Hkeys. apply map_eq. intros param. rewrite load_lookup.
  destruct (decide (param ∈ names)) as [Hin|Hout].
  - apply Hkeys in Hin as [value ->]. done.
  - destruct (data !! param) eqn:E; [|done].
    exfalso. apply Hout, Hkeys. by eauto.
Qed.

(** X12. [set] raises exactly for a name that is not one of the five, on
    every object made by [Config(path)] and changed by [set]; then neither
    the object nor any file changes, and [get] of such a name is [None]. *)
Theorem set_raises_for_unknown_names_only cfg files param value :
  built cfg →
  (param ∈ names → (set cfg files param value).2 = None) ∧
  (param ∉ names →
     set cfg files param value
       = (cfg, files, Some (Exception ("Unknown parameter: " +:+ param)))
     ∧ get cfg param = None).
Proof.
  intros Hb. pose proof (built_keys cfg param Hb) as Hkeys. split.
  - intros Hin. apply Hkeys in Hin as [old_value Hold].
    unfold set. rewrite Hold. by destruct (decide (old_value ≠ value)).
  - intros Hout. unfold set, get.
    destruct (_params cfg !! param) eqn:E; [|done].
    exfalso. apply Hout, Hkeys. by eauto.
Qed.

(** X13. After a [set] that returned, [get] gives the value for the
    parameter and what it gave before for every other one; the path of
    the object is the same. *)
Theorem get_after_set cfg files param value :
  (set cfg files param value).2 = None →
  get (set cfg files param value).1.1 param = value ∧
  (∀ other, other ≠ param →
     get (set cfg files param value).1.1 other = get cfg other) ∧
  path (set cfg files param value).1.1 = path cfg.
Proof.
  unfold set, get. destruct (_params cfg !! param) as [old_value|]; [|done].
  intros _.
  destruct (decide (old_value ≠ value)); simpl;
    rewrite lookup_insert_eq; (split; [done|]); (split; [|done]);
    intros other Hne; by rewrite lookup_insert_ne.
Qed.

(** X14. [set] writes the file of the object exactly when the value
    differs from the one held: with the same value no file changes, and
    with another one only the file at [path] changes, and it loads back
    as the object after the call. *)
Theorem set_writes_when_the_value_changes cfg files param value :
  built cfg →
  param ∈ names →
  (get cfg param = value → (set cfg files param value).1.2 = files) ∧
  (get cfg param ≠ value →
     init (set cfg files param value).1.2 (path cfg)
       = Some (set cfg files param value).1.1 ∧
     ∀ other, other ≠ path cfg →
       (set cfg files param value).1.2 !! other = files !! other).
Proof.
  intros Hb Hin.
  assert (built (set cfg files param value).1.1) as Hb'
    by (by apply built_set).
  pose proof (λ k, built_keys _ k Hb') as Hkeys'.
  apply (built_keys cfg param Hb) in Hin as [old_value Hold].
  revert Hkeys'. unfold set, get. rewrite Hold.
  destruct (decide (old_value ≠ value)) as [Hne|Heq]; simpl; intros Hkeys'.
  - split; [done|]. intros _. split.
    + unfold init, Files. rewrite lookup_insert_eq. by rewrite load_id.
    + intros other Hother. unfold Files. by rewrite lookup_insert_ne.
  - split; [done|]. intros Hne. by destruct Heq.
Qed.

(** X15. [Config(path)] reads the five names and nothing else: a name
    missing from the file is [None], every other key of the file is
    dropped; with no file at [path] every parameter is [None]. *)
Theorem init_reads_the_five_names files path0 :
  files !! path0 ≠ Some Null →
  ∃ cfg, init files path0 = Some cfg ∧ path cfg = path0 ∧
    ∀ param,
      get cfg param =
      match files !! path0 with
      | Some (Mapping data) =>
          if decide (param ∈ names) then default None (data !! param)
          else None
      | _ => None
      end.
Proof.
  intros Hnull. unfold init.
  destruct (files !! path0) as [[|data]|]; [done| |].
  - eexists. split; [done|]. split; [done|]. intros param.
    unfold get. simpl. rewrite load_lookup.
    by destruct (decide (param ∈ names)).
  - eexists. split; [done|]. split; [done|]. intros param.
    unfold get. simpl. rewrite blank_lookup.
    by destruct (decide (param ∈ names)).
Qed.

End Config_facts.

Lemma set_raises_for_unknown_names_only_witness :
  (db.Config.set example.new_config ∅ "vk_token" (Some "u")).2 = None ∧
  db.Config.set example.new_config ∅ "token" (Some "u")
    = (example.new_config, ∅,
       Some (db.Config.Exception "Unknown parameter: token")) ∧
  db.Config.get example.new_config "token" = None.
Proof.
  assert (db.Config.built example.new_config) as Hb
    by (by apply (db.Config.built_init ∅ "config.yaml")).
  split.
  - apply (set_raises_for_unknown_names_only example.new_config ∅
             "vk_token" (Some "u") Hb).
    apply list_elem_of_here.
  - apply (set_raises_for_unknown_names_only example.new_config ∅
             "token" (Some "u") Hb).
    intros Hin.
    repeat (apply elem_of_cons in Hin as [Hin|Hin]; [done|]).
    by apply elem_of_nil in Hin.
Defined.

Lemma get_after_set_witness :
  db.Config.get
    (db.Config.set example.new_config ∅ "vk_token" (Some "u")).1.1 "vk_token"
  = Some "u" ∧
  (∀ other, other ≠ "vk_token" →
     db.Config.get
       (db.Config.set example.new_config ∅ "vk_token" (Some "u")).1.1 other
     = db.Config.get example.new_config other) ∧
  db.Config.path
    (db.Config.set example.new_config ∅ "vk_token" (Some "u")).1.1
  = "config.yaml".
Proof.
  apply (get_after_set example.new_config ∅ "vk_token" (Some "u")).
  reflexivity.
Defined.

Lemma set_writes_when_the_value_changes_witness :
  db.Config.init
    (db.Config.set example.new_config ∅ "vk_token" (Some "u")).1.2
    "config.yaml"
  = Some (db.Config.set example.new_config ∅ "vk_token" (Some "u")).1.1.
Proof.
  assert (db.Config.built example.new_config) as Hb
    by (by apply (db.Config.built_init ∅ "config.yaml")).
  apply (set_writes_when_the_value_changes example.new_config ∅
           "vk_token" (Some "u") Hb).
  - apply list_elem_of_here.
  - vm_compute. discriminate.
Defined.

Lemma init_reads_the_five_names_witness :
  ∃ cfg, db.Config.init example.config_files "config.yaml" = Some cfg ∧
    db.Config.path cfg = "config.yaml" ∧
    ∀ param,
      db.Config.get cfg param =
      match example.config_files !! "config.yaml" with
      | Some (db.Config.Mapping data) =>
          if decide (param ∈ db.Config.names)
          then default None (data !! param)
          else None
      | _ => None
      end.
Proof.
  apply (init_reads_the_five_names example.config_files "config.yaml").
  vm_compute. discriminate.
Defined.

(** ** Yandex Disk: the upload loop and the listing *)

Section yandex_facts.
Import yandex.

Implicit Types (status : nat → Z) (server : nat → Response).

Lemma put_loop_S fuel status max_retry_count retry_count puts :
  put_loop (S fuel) status max_retry_count retry_count puts =
  match settles (status puts) with
  | Some outcome => Some (outcome, S puts)
  | None =>
      if (retry_count + 1 =? max_retry_count)%Z
      then Some (Exceeded (status puts), S puts)
      else put_loop fuel status max_retry_count (retry_count + 1) (S puts)
  end.
Proof.
  cbn [put_loop]. unfold settles.
  destruct ((status puts =? 201) || (status puts =? 202))%Z; [done|].
  destruct (status puts =? 412)%Z; [done|].
  destruct (status puts =? 413)%Z; [done|].
  by destruct (status puts =? 507)%Z.
Qed.

Lemma put_loop_ends fuel status max_retry_count retry_count puts :
  (retry_count < max_retry_count)%Z →
  Z.to_nat (max_retry_count - retry_count) ≤ fuel →
  ∃ outcome puts',
    put_loop fuel status max_retry_count retry_count puts
      = Some (outcome, puts') ∧
    puts < puts' ≤ puts + Z.to_nat (max_retry_count - retry_count) ∧
    (∀ k, puts ≤ k → k + 1 < puts' → settles (status k) = None) ∧
    match settles (status (puts' - 1)) with
    | Some outcome' => outcome = outcome'
    | None =>
        outcome = Exceeded (status (puts' - 1)) ∧
        puts' = puts + Z.to_nat (max_retry_count - retry_count)
    end.
Proof.
  revert retry_count puts.
  induction fuel as [|fuel IH]; intros retry_count puts Hlt Hfuel; [lia|].
  rewrite put_loop_S.
  destruct (settles (status puts)) as [outcome|] eqn:Hs.
  - exists outcome, (S puts). split; [done|]. split; [lia|].
    split; [intros; lia|].
    replace (S puts - 1) with puts by lia. by rewrite Hs.
  - destruct (retry_count + 1 =? max_retry_count)%Z eqn:Hmax.
    + apply Z.eqb_eq in Hmax.
      exists (Exceeded (status puts)), (S puts). split; [done|].
      split; [lia|]. split; [intros; lia|].
      replace (S puts - 1) with puts by lia. rewrite Hs. split; [done|lia].
    + apply Z.eqb_neq in Hmax.
      destruct (IH (retry_count + 1)%Z (S puts)) as
        (outcome & puts' & Hrun & Hbound & Hearlier & Hlast); [lia|lia|].
      exists outcome, puts'. split; [done|]. split; [lia|]. split.
      * intros k Hk Hk'. destruct (decide (k = puts)) as [->|]; [done|].
        apply Hearlier; lia.
      * destruct (settles (status (puts' - 1))); [done|].
        split; [apply Hlast|]. destruct Hlast as [_ ->]. lia.
Qed.

Lemma put_loop_goes_on fuel status max_retry_count retry_count puts :
  (max_retry_count ≤ retry_count)%Z →
  (∀ k, settles (status k) = None) →
  put_loop fuel status max_retry_count retry_count puts = None.
Proof.
  intros Hmax Hnone. revert retry_count puts Hmax.
  induction fuel as [|fuel IH]; intros retry_count puts Hmax; [done|].
  rewrite put_loop_S, Hnone.
  destruct (retry_count + 1 =? max_retry_count)%Z eqn:E;
    [apply Z.eqb_eq in E; lia|].
  apply IH. lia.
Qed.

(** X16. With [max_retry_count] at least 1, [upload] ends after at most
    that many PUT requests: at the first status code among 201, 202, 412,
    413 and 507, with the outcome of that code, or, when none came, after
    exactly [max_retry_count] requests with the plain exception that
    carries the last status code. *)
Theorem upload_ends_within_max_retry_count fuel status max_retry_count :
  (1 ≤ max_retry_count)%Z →
  Z.to_nat max_retry_count ≤ fuel →
  ∃ outcome puts,
    upload fuel status max_retry_count = Some (outcome, puts) ∧
    1 ≤ puts ≤ Z.to_nat max_retry_count ∧
    (∀ k, k + 1 < puts → settles (status k) = None) ∧
    match settles (status (puts - 1)) with
    | Some outcome' => outcome = outcome'
    | None =>
        outcome = Exceeded (status (puts - 1)) ∧
        puts = Z.to_nat max_retry_count
    end.
Proof.
  intros Hmax Hfuel. unfold upload.
  destruct (put_loop_ends fuel status max_retry_count 0 0) as
    (outcome & puts & Hrun & Hbound & Hearlier & Hlast).
  { lia. }
  { by rewrite Z.sub_0_r. }
  rewrite Z.sub_0_r in *.
  exists outcome, puts. split; [done|]. split; [lia|]. split.
  - intros k Hk. apply Hearlier; lia.
  - destruct (settles (status (puts - 1))); [done|].
    split; [apply Hlast|]. by destruct Hlast as [_ ->].
Qed.

(** X17. With [max_retry_count] zero or negative the counter never meets
    it: as long as no status code among 201, 202, 412, 413 and 507 comes,
    [upload] goes on sending PUT requests and never returns nor raises. *)
Theorem upload_never_gives_up_below_one fuel status max_retry_count :
  (max_retry_count ≤ 0)%Z →
  (∀ k, settles (status k) = None) →
  upload fuel status max_retry_count = None.
Proof. intros Hmax Hnone. by apply put_loop_goes_on. Qed.

Lemma pages_all fuel server folder_path limit all offset result :
  serves all limit server →
  0 < limit →
  length all - offset < fuel * limit →
  pages fuel server folder_path limit offset result =
  Some (Result (result ++ List.filter (in_folder folder_path)
                            (drop offset all))).
Proof.
  intros Hserves Hlimit. revert offset result.
  induction fuel as [|fuel IH]; intros offset result Hfuel; [simpl in *; lia|].
  cbn [pages]. rewrite Hserves.
  assert (length (take limit (drop offset all))
          = limit `min` (length all - offset)) as Hlen
    by (by rewrite length_take, length_drop).
  destruct (length (take limit (drop offset all)) =? 0) eqn:Hzero.
  - apply Nat.eqb_eq in Hzero.
    assert (drop offset all = []) as ->.
    { apply nil_length_inv. rewrite length_drop. lia. }
    by rewrite app_nil_r.
  - apply Nat.eqb_neq in Hzero.
    destruct (length (take limit (drop offset all)) <? limit) eqn:Hshort.
    + apply Nat.ltb_lt in Hshort.
      rewrite take_ge by (rewrite length_drop; lia). done.
    + apply Nat.ltb_ge in Hshort.
      rewrite IH by (simpl in Hfuel; lia).
      rewrite <-app_assoc, <-List.filter_app.
      rewrite <-drop_drop, take_drop. done.
Qed.

(** X18. From a server that holds a fixed list of files and answers every
    request with the 1000 files from the offset on, [files_list] returns
    the files whose path is the folder path followed by their name, all
    of them and in the order of the server, however many pages it
    takes. *)
Theorem files_list_reads_every_page fuel server folder_path all :
  serves all 1000 server →
  length all < fuel * 1000 →
  files_list fuel server folder_path =
  Some (Result (List.filter (in_folder (normalize folder_path)) all)).
Proof.
  intros Hserves Hfuel. unfold files_list.
  rewrite (pages_all fuel server _ 1000 all 0 []); [done|done|lia|lia].
Qed.

Lemma ends_with_slash_app (s : string) : ends_with_slash (s +:+ "/") = true.
Proof.
  induction s as [|a s IH]; [done|].
  change (String a s +:+ "/") with (String a (s +:+ "/")).
  cbn [ends_with_slash]. destruct (s +:+ "/") eqn:E; [|done].
  by destruct s.
Qed.

Lemma startswith_slash (s : string) :
  main.startswith s "/" = true ↔ ∃ t, s = String "/" t.
Proof.
  unfold main.startswith. destruct s as [|a s]; cbn [String.prefix].
  - split; [done|]. by intros [t ?].
  - destruct (ascii_dec "/" a) as [<-|Hne].
    + split; [by eauto|]. intros _. by destruct s.
    + split; [done|]. intros [t [= -> _]]. done.
Qed.

Lemma replace_slashes_cons (a b : ascii) (rest : string) :
  replace_slashes (String a (String b rest)) =
  if Ascii.eqb a "/" && Ascii.eqb b "/"
  then String "/" (replace_slashes rest)
  else String a (replace_slashes (String b rest)).
Proof. reflexivity. Qed.

Lemma replace_slashes_first (s : string) :
  main.startswith s "/" = true →
  main.startswith (replace_slashes s) "/" = true.
Proof.
  rewrite !startswith_slash. intros [t ->].
  destruct t as [|b rest]; [by eexists|].
  rewrite replace_slashes_cons.
  destruct (Ascii.eqb "/" "/" && Ascii.eqb b "/"); by eexists.
Qed.

Lemma replace_slashes_last_bounded (n : nat) (s : string) :
  String.length s ≤ n →
  ends_with_slash s = true → ends_with_slash (replace_slashes s) = true.
Proof.
  revert s. induction n as [|n IH]; intros s Hlen.
  { destruct s; [done|simpl in Hlen; lia]. }
  destruct s as [|a [|b rest]]; [done|done|].
  intros Hs. rewrite replace_slashes_cons.
  assert (∀ c t, ends_with_slash t = true →
                 ends_with_slash (String c t) = true) as Hcons
    by (intros c t Ht; by destruct t).
  destruct (Ascii.eqb a "/" && Ascii.eqb b "/").
  - destruct rest as [|c rest]; [done|].
    apply Hcons. apply IH; [simpl in *; lia|]. exact Hs.
  - apply Hcons. apply IH; [simpl in *; lia|]. exact Hs.
Qed.

(** X19. The folder path [files_list] compares with always starts with a
    slash and ends with one, whatever path it was given. *)
Theorem normalize_puts_slashes_around (folder_path : string) :
  main.startswith (normalize folder_path) "/" = true ∧
  ends_with_slash (normalize folder_path) = true.
Proof.
  unfold normalize.
  set (s1 := if main.startswith folder_path "/" then folder_path
             else "/" +:+ folder_path).
  assert (main.startswith s1 "/" = true) as H1.
  { subst s1. destruct (main.startswith folder_path "/") eqn:E; [done|].
    apply startswith_slash. by exists folder_path. }
  set (s2 := if ends_with_slash s1 then s1 else s1 +:+ "/").
  assert (main.startswith s2 "/" = true ∧ ends_with_slash s2 = true)
    as [H2 H2'].
  { subst s2. destruct (ends_with_slash s1) eqn:E; [done|].
    split; [|apply ends_with_slash_app].
    apply startswith_slash in H1 as [t ->]. apply startswith_slash.
    by exists (t +:+ "/"). }
  split; [by apply replace_slashes_first|].
  by apply (replace_slashes_last_bounded (String.length s2)).
Qed.

End yandex_facts.

Lemma upload_ends_within_max_retry_count_witness :
  ∃ outcome puts,
    yandex.upload 1 example.busy_once 1 = Some (outcome, puts) ∧
    1 ≤ puts ≤ 1 ∧
    (∀ k, k + 1 < puts → yandex.settles (example.busy_once k) = None) ∧
    match yandex.settles (example.busy_once (puts - 1)) with
    | Some outcome' => outcome = outcome'
    | None =>
        outcome = yandex.Exceeded (example.busy_once (puts - 1)) ∧ puts = 1
    end.
Proof.
  apply (upload_ends_within_max_retry_count 1 example.busy_once 1).
  - lia.
  - simpl. lia.
Defined.

Lemma upload_never_gives_up_below_one_witness :
  yandex.upload 5 (λ _, 500%Z) 0 = None.
Proof.
  apply (upload_never_gives_up_below_one 5 (λ _, 500%Z) 0).
  - lia.
  - intros k. reflexivity.
Defined.

Lemma files_list_reads_every_page_witness :
  yandex.files_list 1 example.disk_server "photos" =
  Some (yandex.Result
          (List.filter (yandex.in_folder (yandex.normalize "photos"))
             example.disk_files)).
Proof.
  apply (files_list_reads_every_page 1 example.disk_server "photos"
           example.disk_files).
  - intros offset. reflexivity.
  - simpl. lia.
Defined.

(** ** The parameters of a redirect URL *)

Section oauth_facts.
Import oauth.

Implicit Types (sep : ascii) (s t url : string) (kvs : list (string * string)).

Lemma split_cons sep a s :
  split sep (String a s) =
  if Ascii.eqb a sep then "" :: split sep s
  else match split sep s with
       | piece :: pieces => String a piece :: pieces
       | [] => [String a ""]
       end.
Proof. reflexivity. Qed.

Lemma split_length sep s : length (split sep s) = S (count sep s).
Proof.
  induction s as [|a s IH]; [done|].
  rewrite split_cons. cbn [count].
  destruct (Ascii.eqb a sep); simpl; [by rewrite IH|].
  destruct (split sep s); simpl in *; [done|lia].
Qed.

Lemma contains_count sep s : contains sep s = false ↔ count sep s = 0.
Proof.
  induction s as [|a s IH]; simpl; [done|].
  destruct (Ascii.eqb a sep); simpl; [split; [done|lia]|done].
Qed.

Lemma split_free sep s : contains sep s = false → split sep s = [s].
Proof.
  induction s as [|a s IH]; [done|].
  rewrite split_cons. simpl.
  destruct (Ascii.eqb a sep); simpl; [done|].
  intros Hs. by rewrite IH.
Qed.

Lemma split_app sep s t :
  contains sep s = false →
  split sep (s +:+ String sep t) = s :: split sep t.
Proof.
  induction s as [|a s IH].
  - intros _. change ("" +:+ String sep t) with (String sep t).
    rewrite split_cons. by rewrite Ascii.eqb_refl.
  - change (String a s +:+ String sep t)
      with (String a (s +:+ String sep t)).
    rewrite split_cons. simpl.
    destruct (Ascii.eqb a sep); simpl; [done|].
    intros Hs. by rewrite IH.
Qed.

Lemma contains_app sep s t :
  contains sep (s +:+ t) = contains sep s || contains sep t.
Proof.
  induction s as [|a s IH]; [done|].
  change (String a s +:+ t) with (String a (s +:+ t)). simpl.
  by rewrite IH, orb_assoc.
Qed.

Lemma key_value_Some param :
  is_Some (key_value param) ↔ count "=" param = 1.
Proof.
  unfold key_value. pose proof (split_length "=" param) as Hlen.
  destruct (split "=" param) as [|key [|value [|more pieces]]];
    simpl in Hlen; (split; [intros [? ?]|intros ?]); try done; try lia.
Qed.

Lemma key_value_pair kv :
  contains "=" kv.1 = false → contains "=" kv.2 = false →
  key_value (pair_text kv) = Some kv.
Proof.
  intros H1 H2. unfold key_value, pair_text.
  rewrite split_app by done. rewrite split_free by done. by destruct kv.
Qed.

Lemma fold_None (params : list string) :
  foldl assign None params = None.
Proof. induction params as [|param params IH]; [done|]. simpl. exact IH. Qed.

Lemma fold_Some (params : list string) (result : gmap string string) :
  is_Some
    (foldl assign (Some result) params)
  ↔ Forall (λ param, count "=" param = 1) params.
Proof.
  revert result. induction params as [|param params IH]; intros result; simpl.
  - split; [by intros|by eauto].
  - rewrite Forall_cons, <-key_value_Some.
    destruct (key_value param) as [[key value]|].
    + rewrite IH. split; [by eauto|by intros [_ ?]].
    + rewrite fold_None. split; [by intros [? ?]|].
      by intros [[? ?] _].
Qed.

Lemma fold_pairs kvs (result : gmap string string) :
  Forall (λ kv, contains "=" kv.1 = false ∧ contains "=" kv.2 = false) kvs →
  foldl assign (Some result) (pair_text <$> kvs)
  = Some (foldl (λ result kv, <[kv.1 := kv.2]> result) result kvs).
Proof.
  intros Hkvs. revert result.
  induction Hkvs as [|kv kvs [H1 H2] _ IH]; intros result; [done|].
  simpl. rewrite key_value_pair by done. destruct kv as [key value].
  apply IH.
Qed.

Lemma fold_insert_reverse kvs :
  foldl (λ (result : gmap string string) kv, <[kv.1 := kv.2]> result) ∅ kvs
  = list_to_map (reverse kvs).
Proof.
  induction kvs as [|kv kvs IH] using rev_ind; [done|].
  rewrite foldl_snoc, reverse_snoc, IH. by destruct kv.
Qed.

Lemma split_join sep (pieces : list string) :
  pieces ≠ [] →
  Forall (λ piece, contains sep piece = false) pieces →
  split sep (join sep pieces) = pieces.
Proof.
  intros Hne Hfree. induction Hfree as [|piece pieces Hpiece Hfree IH];
    [done|].
  destruct pieces as [|piece' pieces].
  - simpl. by apply split_free.
  - change (join sep (piece :: piece' :: pieces))
      with (piece +:+ String sep (join sep (piece' :: pieces))).
    rewrite split_app by done. by rewrite IH.
Qed.

(** X20. [parse_url_get_params] returns exactly when the URL has no
    question mark, or when every piece between two [&] of the text after
    the first question mark (up to the second one) has exactly one [=];
    any other URL, one that ends in a question mark for one, makes it
    raise. *)
Theorem parse_url_get_params_returns_iff url :
  is_Some (parse_url_get_params url) ↔
  contains "?" url = false ∨
  Forall (λ param, count "=" param = 1)
         (split "&" (nth 1 (split "?" url) "")).
Proof.
  unfold parse_url_get_params.
  destruct (contains "?" url) eqn:E; simpl.
  - rewrite fold_Some. split; [by right|]. by intros [?|?].
  - split; [by left|by eauto].
Qed.

(** X21. A URL made of a base without question mark, a question mark and
    [key=value] pairs joined by [&] gives back the pairs, the last one
    winning for a key that comes twice, when the keys and values hold none
    of [?], [&] and [=]; whatever follows a second question mark is
    ignored. *)
Theorem parse_url_get_params_reads_the_pairs base kvs tail :
  contains "?" base = false →
  kvs ≠ [] →
  Forall (λ kv, plain kv.1 = true ∧ plain kv.2 = true) kvs →
  tail = "" ∨ (∃ t, tail = String "?" t) →
  parse_url_get_params
    (base +:+ String "?" (join "&" (pair_text <$> kvs) +:+ tail))
  = Some (list_to_map (reverse kvs)).
Proof.
  intros Hbase Hne Hplain Htail.
  assert (Forall (λ kv, (contains "?" kv.1 = false ∧ contains "?" kv.2 = false)
                      ∧ (contains "&" kv.1 = false ∧ contains "&" kv.2 = false)
                      ∧ (contains "=" kv.1 = false ∧ contains "=" kv.2 = false))
                 kvs) as Hkvs.
  { eapply Forall_impl; [exact Hplain|]. intros [key value]. unfold plain.
    simpl. rewrite !andb_true_iff, !negb_true_iff. tauto. }
  assert (∀ sep, Forall (λ kv, contains sep kv.1 = false
                             ∧ contains sep kv.2 = false) kvs →
                 sep ≠ "="%char →
                 Forall (λ piece, contains sep piece = false)
                        (pair_text <$> kvs)) as Hpieces.
  { intros sep Hsep Hneq. apply Forall_fmap. eapply Forall_impl; [exact Hsep|].
    intros [key value] [H1 H2]. unfold pair_text. simpl in *.
    rewrite contains_app. cbn [contains]. rewrite H1, H2.
    assert (Ascii.eqb "=" sep = false) as ->; [|done].
    apply Ascii.eqb_neq. by intros <-. }
  assert (contains "?" (join "&" (pair_text <$> kvs)) = false) as Hquery.
  { assert (Forall (λ piece, contains "?" piece = false) (pair_text <$> kvs))
      as Hq.
    { apply Hpieces; [|done]. eapply Forall_impl; [exact Hkvs|]. tauto. }
    clear -Hq. induction Hq as [|piece pieces Hpiece Hq IH]; [done|].
    destruct pieces as [|piece' pieces]; [done|].
    change (join "&" (piece :: piece' :: pieces))
      with (piece +:+ String "&" (join "&" (piece' :: pieces))).
    rewrite contains_app. cbn [contains]. by rewrite Hpiece, IH. }
  unfold parse_url_get_params.
  rewrite contains_app. simpl. rewrite orb_true_r. simpl.
  rewrite split_app by done.
  assert (nth 1 (base :: split "?" (join "&" (pair_text <$> kvs) +:+ tail)) ""
          = join "&" (pair_text <$> kvs)) as ->.
  { destruct Htail as [-> | [t ->]].
    - rewrite append_empty_r. by rewrite split_free.
    - by rewrite split_app. }
  rewrite split_join.
  - rewrite fold_pairs, fold_insert_reverse; [done|].
    eapply Forall_impl; [exact Hkvs|]. tauto.
  - by destruct kvs.
  - apply Hpieces; [|done]. eapply Forall_impl; [exact Hkvs|]. tauto.
Qed.

End oauth_facts.

Lemma parse_url_get_params_reads_the_pairs_witness :
  oauth.parse_url_get_params "/callback?code=abc&state=1&code=xyz"
  = Some (list_to_map (reverse example.redirect_pairs)).
Proof.
  apply (parse_url_get_params_reads_the_pairs "/callback"
           example.redirect_pairs "").
  - reflexivity.
  - discriminate.
  - repeat constructor.
  - left. reflexivity.
Defined.

(** ** The largest size of a photo *)

Section max_size_facts.
Import vk.

Implicit Types (size item maxitem : VKPhotoSize) (sizes : list VKPhotoSize).

(** When [>] is the strict order of a key on the whole list, [max] finds
    the first element with the highest key. *)
Lemma max_from_key (key : VKPhotoSize → Z) sizes :
  ∀ (before : list VKPhotoSize) maxitem i,
    (∀ a b, a ∈ before ++ sizes → b ∈ before ++ sizes →
            gt a b = Some (key b <? key a)%Z) →
    before !! i = Some maxitem →
    (∀ s, s ∈ before → (key s ≤ key maxitem)%Z) →
    (∀ j s, j < i → before !! j = Some s → (key s < key maxitem)%Z) →
    ∃ m k,
      max_from maxitem sizes = Some m ∧
      (before ++ sizes) !! k = Some m ∧
      (∀ s, s ∈ before ++ sizes → (key s ≤ key m)%Z) ∧
      (∀ j s, j < k → (before ++ sizes) !! j = Some s → (key s < key m)%Z).
Proof.
  induction sizes as [|item rest IH]; intros before maxitem i Hgt Hi Hmax Hfirst.
  - exists maxitem, i. rewrite app_nil_r. done.
  - cbn [max_from].
    assert (item ∈ before ++ item :: rest) as Hitem
      by (apply elem_of_app; right; by left).
    assert (maxitem ∈ before ++ item :: rest) as Hmaxitem
      by (apply elem_of_app; left; by eapply list_elem_of_lookup_2).
    rewrite (Hgt item maxitem Hitem Hmaxitem).
    replace (before ++ item :: rest) with ((before ++ [item]) ++ rest) in *
      by (by rewrite <-app_assoc).
    destruct (Z.ltb_spec (key maxitem) (key item)) as [Hlt|Hge].
    + apply (IH (before ++ [item]) item (length before)); [done| | |].
      * by rewrite lookup_app_r, Nat.sub_diag by lia.
      * intros s [Hs|Hs%list_elem_of_singleton]%elem_of_app.
        -- specialize (Hmax s Hs). lia.
        -- subst. lia.
      * intros j s Hj Hs. rewrite lookup_app_l in Hs by done.
        apply list_elem_of_lookup_2 in Hs. specialize (Hmax s Hs). lia.
    + apply (IH (before ++ [item]) maxitem i); [done| | |].
      * by apply lookup_app_l_Some.
      * intros s [Hs|Hs%list_elem_of_singleton]%elem_of_app.
        -- by apply Hmax.
        -- by subst.
      * intros j s Hj Hs. apply (Hfirst j s Hj).
        rewrite lookup_app_l in Hs; [done|].
        apply lookup_lt_Some in Hi. lia.
Qed.

Lemma max_size_key (key : VKPhotoSize → Z) sizes :
  sizes ≠ [] →
  (∀ a b, a ∈ sizes → b ∈ sizes → gt a b = Some (key b <? key a)%Z) →
  ∃ m k,
    max_size sizes = Some m ∧ sizes !! k = Some m ∧
    (∀ s, s ∈ sizes → (key s ≤ key m)%Z) ∧
    (∀ j s, j < k → sizes !! j = Some s → (key s < key m)%Z).
Proof.
  destruct sizes as [|first rest]; [done|]. intros _ Hgt.
  apply (max_from_key key rest [first] first 0); [done|done| |].
  - by intros s ->%list_elem_of_singleton.
  - intros j s Hj. lia.
Qed.

(** A size whose type is not in the table makes every comparison with
    another typed size raise. *)
Lemma max_from_unknown sizes maxitem :
  Forall (λ s, typed s = true) (maxitem :: sizes) →
  (rank maxitem = None ∧ sizes ≠ []) ∨ (∃ s, s ∈ sizes ∧ rank s = None) →
  max_from maxitem sizes = None.
Proof.
  revert maxitem. induction sizes as [|item rest IH]; intros maxitem Htyped Hbad.
  { destruct Hbad as [[_ ?]|(s & Hs & _)]; [done|]. by apply elem_of_nil in Hs. }
  cbn [max_from]. unfold gt.
  pose proof Htyped as Htyped'.
  apply Forall_cons in Htyped' as [Hm [Hi Hrest]%Forall_cons].
  rewrite Hi, Hm. simpl.
  destruct (rank item) as [i|] eqn:Eitem; [|done].
  destruct (rank maxitem) as [j|] eqn:Emax; [|done].
  assert (∃ s, s ∈ rest ∧ rank s = None) as Hbad'.
  { destruct Hbad as [[? _]|(s & Hs & Hnone)]; [done|].
    apply elem_of_cons in Hs as [->|Hs]; [congruence|]. by eauto. }
  destruct (j <? i).
  - apply IH; [by apply Forall_cons|by right].
  - apply IH; [by apply Forall_cons|by right].
Qed.

Lemma gt_typed a b i j :
  typed a = true → typed b = true → rank a = Some i → rank b = Some j →
  gt a b = Some (Z.of_nat (default 0%nat (rank b)) <? Z.of_nat (default 0%nat (rank a)))%Z.
Proof.
  intros Ha Hb Hi Hj. unfold gt. rewrite Ha, Hb, Hi, Hj. simpl.
  f_equal. destruct (Nat.ltb_spec j i), (Z.ltb_spec (Z.of_nat j) (Z.of_nat i));
    (done || lia).
Qed.

Lemma max_size_typed_returns sizes :
  sizes ≠ [] →
  Forall (λ s, typed s = true ∧ is_Some (rank s)) sizes →
  ∃ m, max_size sizes = Some m.
Proof.
  intros Hne Hall. rewrite Forall_forall in Hall.
  destruct (max_size_key (λ s, Z.of_nat (default 0%nat (rank s))) sizes Hne)
    as (m & k & Hmax & _); [|by eauto].
  intros a b Ha Hb.
  destruct (Hall a Ha) as [Hta [i Hi]]. destruct (Hall b Hb) as [Htb [j Hj]].
  by apply (gt_typed a b i j).
Qed.

(** X22. When every size has a type of the table, [max_size] is the first
    size whose type comes latest in ['smxopqryzw']: no size has a later
    type, and every size before it has an earlier one. Width and height
    play no part. *)
Theorem max_size_takes_the_latest_type sizes :
  sizes ≠ [] →
  Forall (λ s, typed s = true ∧ is_Some (rank s)) sizes →
  ∃ m k r,
    max_size sizes = Some m ∧ sizes !! k = Some m ∧ rank m = Some r ∧
    (∀ s r', s ∈ sizes → rank s = Some r' → r' ≤ r) ∧
    (∀ j s r', j < k → sizes !! j = Some s → rank s = Some r' → r' < r).
Proof.
  intros Hne Hall. rewrite Forall_forall in Hall.
  destruct (max_size_key (λ s, Z.of_nat (default 0%nat (rank s))) sizes Hne)
    as (m & k & Hmax & Hk & Hle & Hlt).
  { intros a b Ha Hb.
    destruct (Hall a Ha) as [Hta [i Hi]]. destruct (Hall b Hb) as [Htb [j Hj]].
    by apply (gt_typed a b i j). }
  destruct (Hall m) as [_ [r Hr]]; [by eapply list_elem_of_lookup_2|].
  exists m, k, r. split; [done|]. split; [done|]. split; [done|]. split.
  - intros s r' Hs Hr'. specialize (Hle s Hs). rewrite Hr, Hr' in Hle.
    simpl in Hle. lia.
  - intros j s r' Hj Hs Hr'. specialize (Hlt j s Hj Hs).
    rewrite Hr, Hr' in Hlt. simpl in Hlt. lia.
Qed.

(** X23. When no size has a type, [max_size] is the first size with the
    largest product of width and height. *)
Theorem max_size_takes_the_largest_area sizes :
  sizes ≠ [] →
  Forall (λ s, typed s = false) sizes →
  ∃ m k,
    max_size sizes = Some m ∧ sizes !! k = Some m ∧
    (∀ s, s ∈ sizes → (area s ≤ area m)%Z) ∧
    (∀ j s, j < k → sizes !! j = Some s → (area s < area m)%Z).
Proof.
  intros Hne Hall. rewrite Forall_forall in Hall.
  apply (max_size_key area sizes Hne).
  intros a b Ha Hb. unfold gt. by rewrite (Hall a Ha).
Qed.

(** X24. With two sizes or more, all of them typed, [max_size] raises
    exactly when the type of one of them is not in ['smxopqryzw']. *)
Theorem max_size_raises_for_an_unknown_type sizes :
  Forall (λ s, typed s = true) sizes →
  2 ≤ length sizes →
  max_size sizes = None ↔ ∃ s, s ∈ sizes ∧ rank s = None.
Proof.
  intros Htyped Hlen. split.
  - intros Hnone.
    destruct (decide (Forall (λ s, is_Some (rank s)) sizes)) as [Hall|Hnot].
    + destruct (max_size_typed_returns sizes) as (m & Hm).
      * intros ->. simpl in Hlen. lia.
      * rewrite Forall_forall in *. intros s Hs.
        by split; [apply Htyped|apply Hall].
      * congruence.
    + apply not_Forall_Exists in Hnot; [|apply _].
      apply Exists_exists in Hnot as (s & Hs & Hnot).
      exists s. split; [done|]. simpl in Hnot.
      destruct (rank s); [|done]. destruct Hnot. by eexists.
  - intros (s & Hs & Hnone).
    destruct sizes as [|first [|second rest]]; [simpl in Hlen; lia..|].
    apply max_from_unknown; [done|].
    apply elem_of_cons in Hs as [->|Hs]; [by left|by right; eauto].
Qed.

End max_size_facts.

Lemma max_size_takes_the_latest_type_witness :
  ∃ m k r,
    vk.max_size example.typed_sizes = Some m ∧
    example.typed_sizes !! k = Some m ∧ vk.rank m = Some r ∧
    (∀ s r', s ∈ example.typed_sizes → vk.rank s = Some r' → r' ≤ r) ∧
    (∀ j s r', j < k → example.typed_sizes !! j = Some s →
               vk.rank s = Some r' → r' < r).
Proof.
  apply (max_size_takes_the_latest_type example.typed_sizes).
  - discriminate.
  - repeat (apply Forall_cons; split;
            [split; [reflexivity|eexists; reflexivity]|]).
    apply Forall_nil_2.
Defined.

Lemma max_size_takes_the_largest_area_witness :
  ∃ m k,
    vk.max_size example.bare_sizes = Some m ∧
    example.bare_sizes !! k = Some m ∧
    (∀ s, s ∈ example.bare_sizes → (vk.area s ≤ vk.area m)%Z) ∧
    (∀ j s, j < k → example.bare_sizes !! j = Some s →
            (vk.area s < vk.area m)%Z).
Proof.
  apply (max_size_takes_the_largest_area example.bare_sizes).
  - discriminate.
  - repeat (apply Forall_cons; split; [reflexivity|]). apply Forall_nil_2.
Defined.

Lemma max_size_raises_for_an_unknown_type_witness :
  vk.max_size example.odd_sizes = None ↔
  ∃ s, s ∈ example.odd_sizes ∧ vk.rank s = None.
Proof.
  apply (max_size_raises_for_an_unknown_type example.odd_sizes).
  - repeat (apply Forall_cons; split; [reflexivity|]). apply Forall_nil_2.
  - simpl. lia.
Defined.

(** ** The dictionary of the Yandex folder *)

Section setup_facts.
Import yandex setup.

Lemma last_filter_fmap (P : yandex.Item → bool) (all : list yandex.Item) h :
  snd <$> last (filter (λ item : string * string, item.1 = h)
                  (md5_name <$> List.filter P all))
  = yandex.name <$>
    last (filter (λ item, P item = true ∧ yandex.md5 item = h) all).
Proof.
  induction all as [|x all IH]; [done|].
  cbn [List.filter]. rewrite (filter_cons (λ item, _ ∧ _)).
  destruct (P x) eqn:HP.
  - rewrite fmap_cons, filter_cons. unfold md5_name at 1. simpl.
    destruct (decide (md5 x = h)) as [E|E].
    + rewrite decide_True by done. rewrite !last_cons.
      destruct (last (filter _ (md5_name <$> _))) eqn:E1;
        destruct (last (filter _ all)) eqn:E2; simpl in *; congruence.
    + rewrite decide_False by (by intros [_ ?]). exact IH.
  - rewrite decide_False by (by intros [? _]). exact IH.
Qed.

(** X25. Built from a server that holds a fixed list of files, the Yandex
    dictionary of [main] maps a hash to the name of the last file with
    that hash among those that lie in the folder itself; a file in a
    folder below it is not in the dictionary. *)
Theorem yandex_inventory_holds_the_folder fuel server yandex_path all :
  serves all 1000 server →
  length all < fuel * 1000 →
  ∃ d, yandex_inventory fuel server yandex_path = Some (inr d) ∧
    ∀ h, d !! h =
      yandex.name <$>
      last (filter (λ item, in_folder (normalize yandex_path) item = true
                            ∧ yandex.md5 item = h) all).
Proof.
  intros Hserves Hfuel. unfold yandex_inventory, files_list.
  rewrite (pages_all fuel server _ 1000 all 0 []); [|done|lia|lia].
  eexists. split; [done|]. intros h. simpl.
  unfold main.yandex_listing. rewrite fold_yandex, lookup_empty.
  rewrite <-last_filter_fmap.
  by destruct (last _).
Qed.

End setup_facts.

Lemma yandex_inventory_holds_the_folder_witness :
  ∃ d, setup.yandex_inventory 1 example.disk_server "photos" = Some (inr d) ∧
    ∀ h, d !! h =
      yandex.name <$>
      last (filter (λ item,
                      yandex.in_folder (yandex.normalize "photos") item = true
                      ∧ yandex.md5 item = h) example.disk_files).
Proof.
  apply (yandex_inventory_holds_the_folder 1 example.disk_server "photos"
           example.disk_files).
  - intros offset. reflexivity.
  - simpl. lia.
Defined.

(** ** The extension of a photo, from its URL *)

Section extension_facts.
Import vk.

Implicit Types (c a : ascii) (s t u url : string).

Lemma length_append s t :
  String.length (s +:+ t) = String.length s + String.length t.
Proof.
  induction s as [|a s IH]; [done|].
  change (String a s +:+ t) with (String a (s +:+ t)). simpl. by rewrite IH.
Qed.

Lemma rfind_free c t : oauth.contains c t = false → rfind c t = (-1)%Z.
Proof.
  induction t as [|a t IH]; [done|]. cbn [oauth.contains rfind].
  intros [Ha Ht]%orb_false_iff. rewrite (IH Ht), Ha. done.
Qed.

Lemma rfind_last c s t :
  oauth.contains c t = false →
  rfind c (s +:+ String c t) = Z.of_nat (String.length s).
Proof.
  intros Ht. induction s as [|a s IH].
  - change ("" +:+ String c t) with (String c t). cbn [rfind].
    rewrite (rfind_free c t Ht), Ascii.eqb_refl. done.
  - change (String a s +:+ String c t) with (String a (s +:+ String c t)).
    cbn [rfind]. rewrite IH.
    destruct (Z.ltb_spec (Z.of_nat (String.length s)) 0); [lia|].
    simpl String.length. lia.
Qed.

Lemma find_free c s : oauth.contains c s = false → find c s = (-1)%Z.
Proof.
  induction s as [|a s IH]; [done|]. cbn [oauth.contains find].
  intros [Ha Hs]%orb_false_iff. rewrite (IH Hs), Ha. done.
Qed.

Lemma find_first c s t :
  oauth.contains c s = false →
  find c (s +:+ String c t) = Z.of_nat (String.length s).
Proof.
  induction s as [|a s IH].
  - intros _. change ("" +:+ String c t) with (String c t). cbn [find].
    by rewrite Ascii.eqb_refl.
  - change (String a s +:+ String c t) with (String a (s +:+ String c t)).
    cbn [oauth.contains find]. intros [Ha Hs]%orb_false_iff.
    rewrite Ha, (IH Hs).
    destruct (Z.ltb_spec (Z.of_nat (String.length s)) 0); [lia|].
    simpl String.length. lia.
Qed.

Lemma substring_drop s t n :
  String.substring (String.length s) n (s +:+ t) = String.substring 0 n t.
Proof.
  induction s as [|a s IH]; [done|].
  change (String a s +:+ t) with (String a (s +:+ t)). exact IH.
Qed.

Lemma substring_take s t :
  String.substring 0 (String.length s) (s +:+ t) = s.
Proof.
  induction s as [|a s IH]; [by destruct t|].
  change (String a s +:+ t) with (String a (s +:+ t)). simpl. by rewrite IH.
Qed.

(** [(s + t + u)[len(s):len(s) + len(t)]] is [t]. *)
Lemma slice_middle s t u :
  slice (s +:+ t +:+ u) (Z.of_nat (String.length s))
    (Z.of_nat (String.length s + String.length t)) = t.
Proof.
  unfold slice. rewrite !length_append.
  rewrite !(proj2 (Z.ltb_ge _ _)) by lia.
  rewrite !Z.min_l by lia.
  replace (Z.to_nat (Z.of_nat (String.length s))) with (String.length s)
    by lia.
  replace (Z.to_nat (Z.of_nat (String.length s + String.length t)
                     - Z.of_nat (String.length s)))
    with (String.length t) by lia.
  by rewrite substring_drop, substring_take.
Qed.

(** [(s + t + a)[len(s):-1]] is [t]: the last character is left out. *)
Lemma slice_but_last s t a :
  slice (s +:+ t +:+ String a "") (Z.of_nat (String.length s)) (-1) = t.
Proof.
  unfold slice. rewrite !length_append. simpl String.length.
  rewrite (proj2 (Z.ltb_ge _ _)) by lia.
  rewrite (proj2 (Z.ltb_lt _ _)) by lia.
  rewrite Z.min_l by lia. rewrite Z.max_r by lia.
  replace (Z.to_nat (Z.of_nat (String.length s))) with (String.length s)
    by lia.
  replace (Z.to_nat (-1 + Z.of_nat (String.length s + (String.length t + 1))
                     - Z.of_nat (String.length s)))
    with (String.length t) by lia.
  by rewrite substring_drop, substring_take.
Qed.

(** [(s + t)[len(s):]] is [t]. *)
Lemma slice_from_app s t :
  slice_from (s +:+ t) (Z.of_nat (String.length s)) = t.
Proof.
  unfold slice_from.
  pose proof (slice_middle s t "") as H.
  rewrite !append_empty_r in H. rewrite length_append. exact H.
Qed.

(** The text after the last full stop of a name. *)
Lemma after_last_dot stem ext :
  oauth.contains "." ext = false →
  slice_from (stem +:+ String "." ext)
    (rfind "." (stem +:+ String "." ext) + 1) = ext.
Proof.
  intros Hext. rewrite rfind_last by done.
  replace (Z.of_nat (String.length stem) + 1)%Z
    with (Z.of_nat (String.length (stem +:+ "."))).
  - rewrite <-(slice_from_app (stem +:+ ".") ext) at 2.
    by rewrite append_assoc.
  - rewrite length_append. simpl. lia.
Qed.

(** X26. For a URL of the shape [dir/stem.ext?query], with no slash after
    the one before the name, no question mark in the name and no full stop
    in [ext], [file_extension] is [ext]. *)
Theorem file_extension_of_a_url_with_query dir stem ext query :
  oauth.contains "/" (stem +:+ "." +:+ ext +:+ "?" +:+ query) = false →
  oauth.contains "?" (stem +:+ "." +:+ ext) = false →
  oauth.contains "." ext = false →
  file_extension (dir +:+ "/" +:+ stem +:+ "." +:+ ext +:+ "?" +:+ query)
  = ext.
Proof.
  intros Hslash Hmark Hdot. unfold file_extension.
  set (tail := stem +:+ "." +:+ ext +:+ "?" +:+ query) in *.
  set (name := stem +:+ "." +:+ ext) in *.
  assert (tail = name +:+ String "?" query) as Htail
    by (subst tail name; by rewrite !append_assoc).
  change (dir +:+ "/" +:+ tail) with (dir +:+ String "/" tail).
  rewrite rfind_last by done.
  replace (Z.of_nat (String.length dir) + 1)%Z
    with (Z.of_nat (String.length (dir +:+ "/")))
    by (rewrite length_append; simpl; lia).
  replace (dir +:+ String "/" tail)
    with ((dir +:+ "/") +:+ name +:+ String "?" query)
    by (by rewrite append_assoc, Htail).
  assert (find_from "?" ((dir +:+ "/") +:+ name +:+ String "?" query)
            (Z.of_nat (String.length (dir +:+ "/")))
          = Z.of_nat (String.length (dir +:+ "/") + String.length name))
    as ->.
  { unfold find_from. rewrite slice_from_app, find_first by done.
    destruct (Z.ltb_spec (Z.of_nat (String.length name)) 0); lia. }
  rewrite slice_middle. subst name. by apply after_last_dot.
Qed.

(** X27. For a URL without question mark, [find] gives -1 and the slice
    ends before the last character: with the shape [dir/stem.ext] followed
    by one more character, [file_extension] is [ext], so that
    [.../photo.jpg] gives [jp]. *)
Theorem file_extension_without_query_drops_a_character dir stem ext a :
  oauth.contains "/" (stem +:+ "." +:+ ext +:+ String a "") = false →
  oauth.contains "?" (stem +:+ "." +:+ ext +:+ String a "") = false →
  oauth.contains "." ext = false →
  file_extension (dir +:+ "/" +:+ stem +:+ "." +:+ ext +:+ String a "")
  = ext.
Proof.
  intros Hslash Hmark Hdot. unfold file_extension.
  set (tail := stem +:+ "." +:+ ext +:+ String a "") in *.
  set (name := stem +:+ "." +:+ ext) in *.
  assert (tail = name +:+ String a "") as Htail
    by (subst tail name; by rewrite !append_assoc).
  change (dir +:+ "/" +:+ tail) with (dir +:+ String "/" tail).
  rewrite rfind_last by done.
  replace (Z.of_nat (String.length dir) + 1)%Z
    with (Z.of_nat (String.length (dir +:+ "/")))
    by (rewrite length_append; simpl; lia).
  replace (dir +:+ String "/" tail)
    with ((dir +:+ "/") +:+ name +:+ String a "")
    by (by rewrite append_assoc, Htail).
  assert (find_from "?" ((dir +:+ "/") +:+ name +:+ String a "")
            (Z.of_nat (String.length (dir +:+ "/"))) = (-1)%Z) as ->.
  { unfold find_from. rewrite slice_from_app, <-Htail, find_free by done.
    done. }
  rewrite slice_but_last. subst name. by apply after_last_dot.
Qed.

End extension_facts.

Lemma file_extension_of_a_url_with_query_witness :
  vk.file_extension "https://sun9-1.userapi.com/c1/photo.v2.jpg?size=1280x720"
  = "jpg".
Proof.
  apply (file_extension_of_a_url_with_query "https://sun9-1.userapi.com/c1"
           "photo.v2" "jpg" "size=1280x720"); reflexivity.
Defined.

Lemma file_extension_without_query_drops_a_character_witness :
  vk.file_extension "https://sun9-1.userapi.com/c1/photo.jpg" = "jp".
Proof.
  apply (file_extension_without_query_drops_a_character
           "https://sun9-1.userapi.com/c1" "photo" "jp" "g"); reflexivity.
Defined.

(** ** The photos of an album *)

Section album_facts.
Import vk.

Context {A : Type}.

Implicit Types (all result : list A) (photos_get : Z → Z → Response A).

Lemma offsets_S (offset : Z) n :
  (λ k, offset + 1000 * Z.of_nat k)%Z <$> seq 0 (S n) =
  offset :: ((λ k, (offset + 1000) + 1000 * Z.of_nat k)%Z <$> seq 0 n).
Proof.
  cbn [seq fmap list_fmap]. f_equal; [lia|].
  rewrite <-fmap_S_seq, <-list_fmap_compose.
  apply list_fmap_ext. intros _ k _. simpl. lia.
Qed.

Lemma get_pages_whole all photos_get count n :
  holds all photos_get →
  (1000 ≤ count)%Z →
  ∀ offset result,
    (0 ≤ offset)%Z →
    get_pages photos_get count
      ((λ k, offset + 1000 * Z.of_nat k)%Z <$> seq 0 n) result
    = Returned (result ++ take (n * 1000) (drop (Z.to_nat offset) all)).
Proof.
  intros Hholds Hcount.
  induction n as [|n IH]; intros offset result Hoffset.
  - simpl. by rewrite app_nil_r.
  - rewrite offsets_S. cbn [get_pages]. unfold VK_PHOTOS_MAX_IPR.
    rewrite (proj2 (Z.ltb_ge _ _)) by lia. rewrite Hholds.
    change (Z.to_nat 1000) with 1000.
    destruct (length (take 1000 (drop (Z.to_nat offset) all)) =? 0) eqn:E.
    + apply Nat.eqb_eq in E. rewrite length_take, length_drop in E.
      assert (drop (Z.to_nat offset) all = []) as ->.
      { apply nil_length_inv. rewrite length_drop. lia. }
      by rewrite take_nil, app_nil_r.
    + rewrite IH by lia. rewrite <-app_assoc. do 2 f_equal.
      replace (Z.to_nat (offset + 1000)) with (Z.to_nat offset + 1000) by lia.
      by rewrite <-drop_drop, take_take_drop.
Qed.

(** X28. For an album whose photos the server holds, [get_photos] with a
    positive [count] below 1000 returns the [count] photos from [offset]
    on; from 1000 on it asks for whole pages of 1000, so that it returns
    the photos up to the next multiple of 1000, more than [count] when
    [count] is not a multiple and the album has them. *)
Theorem get_photos_reads_whole_pages all photos_get size offset count :
  holds all photos_get →
  (0 ≤ offset)%Z →
  (0 < count)%Z →
  get_photos size photos_get offset (Some count) =
  Returned
    (take (Z.to_nat (if (count <? 1000)%Z then count
                     else 1000 * ((count + 999) / 1000))%Z)
          (drop (Z.to_nat offset) all)).
Proof.
  intros Hholds Hoffset Hcount. unfold get_photos, range, VK_PHOTOS_MAX_IPR.
  rewrite (proj2 (Z.eqb_neq count 0)) by lia.
  replace (count + offset - offset + 1000 - 1)%Z with (count + 999)%Z by lia.
  destruct (Z.ltb_spec count 1000) as [Hsmall|Hlarge].
  - assert ((count + 999) / 1000 = 1)%Z as ->.
    { symmetry. apply (Z.div_unique _ _ 1 (count - 1)); lia. }
    change (Z.to_nat 1) with 1. simpl seq. cbn [fmap list_fmap get_pages].
    unfold VK_PHOTOS_MAX_IPR. rewrite (proj2 (Z.ltb_lt _ _)) by lia.
    replace (offset + 1000 * Z.of_nat 0)%Z with offset by lia.
    rewrite Hholds.
    destruct (length _ =? 0) eqn:E; [|done].
    apply Nat.eqb_eq, nil_length_inv in E. by rewrite E.
  - rewrite (get_pages_whole all) by (done || lia). simpl.
    do 2 f_equal.
    assert (0 ≤ (count + 999) / 1000)%Z by (apply Z.div_pos; lia).
    lia.
Qed.

End album_facts.

Lemma get_photos_reads_whole_pages_witness :
  vk.get_photos 5000
    (λ offset count,
       vk.Items (take (Z.to_nat count) (drop (Z.to_nat offset) (seq 0 2500))))
    0 (Some 1500%Z)
  = vk.Returned
      (take (Z.to_nat (if (1500 <? 1000)%Z then 1500
                       else 1000 * ((1500 + 999) / 1000))%Z)
         (drop (Z.to_nat 0) (seq 0 2500))).
Proof.
  apply (get_photos_reads_whole_pages (seq 0 2500)
           (λ offset count,
              vk.Items (take (Z.to_nat count)
                          (drop (Z.to_nat offset) (seq 0 2500))))
           5000%Z 0%Z 1500%Z).
  - intros offset count. reflexivity.
  - lia.
  - lia.
Defined.

(** ** The listing of the Google folder *)

Section google_facts.
Import google.

Implicit Types (server : option string → Response) (data : Data).
Implicit Types (bodies : list Data).

Lemma merge_held (result data : Data) held :
  files result = Some held →
  ∃ result',
    merge (Some result) data = Some result' ∧
    files result' = Some (held ++ files_of data) ∧
    nextPageToken result' = nextPageToken result.
Proof.
  intros Hheld. unfold merge, files_of. rewrite Hheld.
  destruct (files data) as [[|file more]|]; simpl.
  - exists result. by rewrite app_nil_r.
  - by eexists.
  - exists result. by rewrite app_nil_r.
Qed.

Lemma pages_chain server bodies :
  ∀ fuel pageToken (result : Data) held,
    chain server pageToken bodies →
    files result = Some held →
    length bodies ≤ fuel →
    ∃ result',
      pages fuel server pageToken (Some result) = Some (Returned result') ∧
      files result' = Some (held ++ concat (files_of <$> bodies)) ∧
      nextPageToken result' = nextPageToken result.
Proof.
  induction bodies as [|data rest IH];
    intros fuel pageToken result held Hchain Hheld Hfuel; [done|].
  destruct fuel as [|fuel]; [simpl in Hfuel; lia|].
  destruct Hchain as [Hserver Hrest]. cbn [pages]. rewrite Hserver.
  destruct (merge_held result data held Hheld) as (r1 & -> & Hfiles & Htoken).
  destruct rest as [|data' rest].
  - exists r1. simpl. rewrite app_nil_r.
    destruct Hrest as [-> | ->]; done.
  - destruct Hrest as (token & Hnext & Hne & Hchain). rewrite Hnext.
    destruct token as [|a token]; [done|].
    destruct (IH fuel (Some (String a token)) r1 (held ++ files_of data))
      as (r2 & Hrun & Hfiles2 & Htoken2); [done|done|simpl in *; lia|].
    exists r2. split; [done|]. split.
    + rewrite Hfiles2, <-app_assoc. done.
    + congruence.
Qed.

Lemma files_list_chain server first rest held fuel :
  chain server None (first :: rest) →
  files first = Some held →
  length rest < fuel →
  ∃ result,
    files_list fuel server = Some (Returned result) ∧
    files result = Some (held ++ concat (files_of <$> rest)) ∧
    nextPageToken result = nextPageToken first.
Proof.
  intros [Hserver Hrest] Hheld Hfuel. unfold files_list.
  destruct fuel as [|fuel]; [lia|]. cbn [pages merge]. rewrite Hserver.
  destruct rest as [|data rest].
  - exists first. simpl. rewrite app_nil_r.
    destruct Hrest as [-> | ->]; done.
  - destruct Hrest as (token & Hnext & Hne & Hchain).
    destruct token as [|a token]; [done|].
    destruct (pages_chain server (data :: rest) fuel
                (Some (String a token)) first held)
      as (result & Hrun & Hfiles & Htoken); [done|done|simpl in *; lia|].
    exists result. rewrite Hnext in Htoken. by rewrite Hnext.
Qed.

(** X29. From a server that answers page after page, the first one with
    a ['files'] key, [files_list] returns the first body with the files of
    all pages in its ['files'], in the order of the pages; its
    ['nextPageToken'] is still the one of the first page. *)
Theorem files_list_joins_the_pages server first rest held fuel :
  chain server None (first :: rest) →
  files first = Some held →
  length rest < fuel →
  ∃ result,
    files_list fuel server = Some (Returned result) ∧
    files result = Some (held ++ concat (files_of <$> rest)) ∧
    nextPageToken result = nextPageToken first.
Proof. apply files_list_chain. Qed.

(** X30. Built from such a server, the Google dictionary of [main] maps a
    hash to the name of the last file with that [md5Checksum] over all the
    pages; and when the first answer is the error 404, [files_list]
    returns [None] and [main] stops with a [TypeError]. *)
Theorem google_inventory_holds_every_page server first rest held fuel :
  chain server None (first :: rest) →
  files first = Some held →
  length rest < fuel →
  (∃ d, setup.google_inventory fuel server = Some (setup.Built d) ∧
     ∀ h, d !! h =
       main.name <$>
       last (filter (λ item, main.md5Checksum item = Some h)
               (held ++ concat (files_of <$> rest))))
  ∧ ∀ server' reason,
      server' None = Error 404 reason →
      setup.google_inventory fuel server' = Some setup.TypeError.
Proof.
  intros Hchain Hheld Hfuel. split.
  - destruct (files_list_chain server first rest held fuel Hchain Hheld Hfuel)
      as (result & Hrun & Hfiles & _).
    unfold setup.google_inventory. rewrite Hrun, Hfiles.
    destruct (held ++ concat (files_of <$> rest)) as [|file more] eqn:E.
    + exists ∅. split; [done|]. intros h. by rewrite lookup_empty.
    + eexists. split; [done|]. intros h.
      unfold main.google_listing. rewrite fold_google, lookup_empty.
      by destruct (last _).
  - intros server' reason Hserver.
    unfold setup.google_inventory, files_list.
    destruct fuel as [|fuel]; [lia|]. cbn [pages]. by rewrite Hserver.
Qed.

End google_facts.

Lemma drive_server_chain :
  google.chain example.drive_server None
    [example.first_page; example.second_page].
Proof.
  split; [reflexivity|]. exists "t1". split; [reflexivity|].
  split; [discriminate|]. split; [reflexivity|]. left. reflexivity.
Defined.

Lemma files_list_joins_the_pages_witness :
  ∃ result,
    google.files_list 2 example.drive_server = Some (google.Returned result) ∧
    google.files result =
      Some ([mkGoogleFile (Some "h") "a.jpg"]
            ++ concat (google.files_of <$> [example.second_page])) ∧
    google.nextPageToken result = google.nextPageToken example.first_page.
Proof.
  apply (files_list_joins_the_pages example.drive_server example.first_page
           [example.second_page] [mkGoogleFile (Some "h") "a.jpg"] 2).
  - exact drive_server_chain.
  - reflexivity.
  - simpl. lia.
Defined.

Lemma google_inventory_holds_every_page_witness :
  (∃ d, setup.google_inventory 2 example.drive_server
          = Some (setup.Built d) ∧
     ∀ h, d !! h =
       main.name <$>
       last (filter (λ item, main.md5Checksum item = Some h)
               ([mkGoogleFile (Some "h") "a.jpg"]
                ++ concat (google.files_of <$> [example.second_page]))))
  ∧ ∀ server' reason,
      server' None = google.Error 404 reason →
      setup.google_inventory 2 server' = Some setup.TypeError.
Proof.
  apply (google_inventory_holds_every_page example.drive_server
           example.first_page [example.second_page]
           [mkGoogleFile (Some "h") "a.jpg"] 2).
  - exact drive_server_chain.
  - reflexivity.
  - simpl. lia.
Defined.
